(** * gafka: the sub server's ack committer and idle-connection tracker,
      the delayed-job executor, the disk hinted-handoff service and the
      zone load watcher.

    A shallow embedding of
      - [subServer.ackCommitter], [subServer.commitOffsets] and
        [subServer.connStateHandler] (package gateway),
      - [JobExecutor.handleDueJobs] (package executor),
      - [Service.New/Start/Stop/Inflights/Append/Empty/FlushInflights] with
        [loadQueues], [createAndOpenQueue] and [nextDir] (package disk),
      - [WatchLoadAvg.highLoadCount] (package external).

    Go maps are finite maps ([gmap]); reading a missing key of a nested map
    yields the nil map, and assigning into the nil map panics, which the
    embedding renders as [None].  Collaborators whose code lives outside these
    files (ZooKeeper, MySQL, the broker, the file system, the on-disk queue)
    are section variables threaded through an explicit world state. *)

From stdpp Require Import gmap strings list fin_maps pretty.

Open Scope Z_scope.

(** ** Machine integers

    [int32] and [int64] arithmetic wraps around. *)

Definition wrap32 (z : Z) : Z := (z + 2 ^ 31) `mod` 2 ^ 32 - 2 ^ 31.
Definition wrap64 (z : Z) : Z := (z + 2 ^ 63) `mod` 2 ^ 64 - 2 ^ 63.

(** ** Iterating in the option monad

    [range_fold f l s] runs the loop body [f] once per element of [l], in
    order, and stops at the first panic. *)

Fixpoint range_fold {A S : Type} (f : A → S → option S) (l : list A) (s : S)
  : option S :=
  match l with
  | [] => Some s
  | a :: l' => f a s ≫= range_fold f l'
  end.

Lemma range_fold_app {A S} (f : A → S → option S) l1 l2 s :
  range_fold f (l1 ++ l2) s = range_fold f l1 s ≫= range_fold f l2.
Proof.
  revert s. induction l1 as [|a l1 IH]; intros s; simpl; [done|].
  destruct (f a s) as [s1|]; simpl; [apply IH | done].
Qed.

Lemma range_fold_ext {A S} (f g : A → S → option S) l s :
  (∀ a s', a ∈ l → f a s' = g a s') → range_fold f l s = range_fold g l s.
Proof.
  revert s. induction l as [|a l IH]; intros s Hfg; simpl; [done|].
  rewrite Hfg by left. destruct (g a s) as [s1|]; simpl; [|done].
  apply IH. intros ???. apply Hfg. by right.
Qed.

(** A loop nested in a loop visits the concatenation of the inner ranges. *)
Lemma range_fold_bind {A B S} (f : B → S → option S) (h : A → list B) l s :
  range_fold (λ a, range_fold f (h a)) l s = range_fold f (l ≫= h) s.
Proof.
  revert s. induction l as [|a l IH]; intros s; csimpl; [done|].
  rewrite range_fold_app. destruct (range_fold f (h a) s); simpl; [apply IH | done].
Qed.

Module SubServer.

(** One client acknowledgement; [ackOffsets] is the batch sent on [ackCh]. *)
Record ackOffset := AckOffset {
  cluster : string;
  topic : string;
  group : string;
  Partition : Z;
  Offset : Z
}.

Definition ackOffsets := list ackOffset.

(** [map[string]map[string]map[string]map[int]int64], keyed
    [cluster][topic][group][partition]. *)
Abbreviation partitionOffsets := (gmap Z Z).
Abbreviation groupPartitions := (gmap string (gmap Z Z)).
Abbreviation topicGroups := (gmap string (gmap string (gmap Z Z))).
Abbreviation AckedOffsets := (gmap string (gmap string (gmap string (gmap Z Z)))).

(** Reads: a missing key at any level reads as the nil map, and reading the
    nil map finds nothing. *)
Definition get2 (m : AckedOffsets) (c t : string) : option groupPartitions :=
  m !! c ≫= (.!! t).

Definition get3 (m : AckedOffsets) (c t g : string) : option partitionOffsets :=
  get2 m c t ≫= (.!! g).

Definition slot (m : AckedOffsets) (c t g : string) (p : Z) : option Z :=
  get3 m c t g ≫= (.!! p).

(** Writes: [m[c] = v] always succeeds on the top-level map; the deeper
    assignments first read the enclosing maps and panic on a nil one. *)
Definition assign1 (c : string) (v : topicGroups) (m : AckedOffsets)
  : AckedOffsets := <[c := v]> m.

Definition assign2 (c t : string) (v : groupPartitions) (m : AckedOffsets)
  : option AckedOffsets :=
  ct ← m !! c;
  Some (<[c := <[t := v]> ct]> m).

Definition assign3 (c t g : string) (v : partitionOffsets) (m : AckedOffsets)
  : option AckedOffsets :=
  ct ← m !! c;
  tg ← ct !! t;
  Some (<[c := <[t := <[g := v]> tg]> ct]> m).

Definition assign4 (c t g : string) (p : Z) (v : Z) (m : AckedOffsets)
  : option AckedOffsets :=
  ct ← m !! c;
  tg ← ct !! t;
  gp ← tg !! g;
  Some (<[c := <[t := <[g := <[p := v]> gp]> tg]> ct]> m).

(** The body of [for _, ack := range acks] in [ackCommitter].  The third
    presence test reads [ackedOffsets[ack.topic][ack.group]], as the source
    does. *)
Definition record_ack (ack : ackOffset) (m : AckedOffsets)
  : option AckedOffsets :=
  let m1 :=
    match m !! cluster ack with
    | Some _ => m
    | None => assign1 (cluster ack) ∅ m
    end in
  m2 ← match get2 m1 (cluster ack) (topic ack) with
       | Some _ => Some m1
       | None => assign2 (cluster ack) (topic ack) ∅ m1
       end;
  m3 ← match get2 m2 (topic ack) (group ack) with
       | Some _ => Some m2
       | None => assign3 (cluster ack) (topic ack) (group ack) ∅ m2
       end;
  assign4 (cluster ack) (topic ack) (group ack) (Partition ack) (Offset ack) m3.

Definition record_acks (acks : ackOffsets) (m : AckedOffsets)
  : option AckedOffsets :=
  range_fold record_ack acks m.

(** *** The coordination store, as [commitOffsets] sees it *)

(** [zk.ErrNoNode] is the one error [commitOffsets] tells apart. *)
Inductive zkError := ErrNoNode | ErrOther (msg : string).

Global Instance zkError_eq_dec : EqDecision zkError.
Proof. solve_decision. Defined.

(** [strconv.Itoa]: decimal digits, with a leading minus sign. *)
Definition strconv_Itoa (i : Z) : string := pretty i.

(** One call of [ResetConsumerGroupOffset], with the error it returned. *)
Record zkCall := ZkCall {
  call_cluster : string;
  call_topic : string;
  call_group : string;
  call_partition : string;
  call_offset : Z;
  call_err : option zkError
}.

Global Instance zkCall_eq_dec : EqDecision zkCall.
Proof. solve_decision. Defined.

(** Whether a call addresses the slot [cluster][topic][group][partition]. *)
Definition call_for (c t g : string) (p : Z) (k : zkCall) : Prop :=
  call_cluster k = c ∧ call_topic k = t ∧ call_group k = g ∧
  call_partition k = strconv_Itoa p.

Global Instance call_for_dec c t g p k : Decision (call_for c t g p k).
Proof. unfold call_for. apply _. Defined.

Section Committer.

(** The state of the coordination store and its offset-set operation:
    [meta.Default.ZkCluster(cluster).ResetConsumerGroupOffset(topic, group,
    partition, offset)]. *)
Variable Zk : Type.
Variable ResetConsumerGroupOffset :
  string → string → string → string → Z → Zk → Zk * option zkError.

(** Go leaves the order of [range] over a map unspecified: [range path m]
    is the order in which the map found at [path] is visited. *)
Variable range : ∀ `{Countable K} {V : Type}, list string → gmap K V → list (K * V).
Hypothesis range_perm : ∀ `{Countable K} {V : Type} path (m : gmap K V),
  range path m ≡ₚ map_to_list m.

(** What a flush works on: the offsets, the store, and the calls made so
    far (a history kept for the proofs). *)
Record flushState := FlushState {
  acked : AckedOffsets;
  zk : Zk;
  calls : list zkCall
}.

(** The body of the innermost loop of [commitOffsets]. *)
Definition commit_slot (cluster topic group : string) (partition offset : Z)
    (st : flushState) : option flushState :=
  if decide (offset = -1) then
    (* this slot is empty *)
    Some st
  else
    let '(zk', err) :=
      ResetConsumerGroupOffset cluster topic group (strconv_Itoa partition)
        offset (zk st) in
    let call :=
      ZkCall cluster topic group (strconv_Itoa partition) offset err in
    let st1 := FlushState (acked st) zk' (calls st ++ [call]) in
    match err with
    | Some e =>
        if decide (e = ErrNoNode) then
          (* invalid offset commit request, will not retry *)
          m ← assign4 cluster topic group partition (-1) (acked st1);
          Some (FlushState m zk' (calls st1))
        else Some st1
    | None =>
        (* mark this slot empty *)
        m ← assign4 cluster topic group partition (-1) (acked st1);
        Some (FlushState m zk' (calls st1))
    end.

Definition commitOffsets (st : flushState) : option flushState :=
  range_fold (λ '(cluster, clusterTopic),
    range_fold (λ '(topic, groupPartition),
      range_fold (λ '(group, partitionOffset),
        range_fold (λ '(partition, offset),
          commit_slot cluster topic group partition offset)
        (range [cluster; topic; group] partitionOffset))
      (range [cluster; topic] groupPartition))
    (range [cluster] clusterTopic))
  (range [] (acked st)) st.

(** The slots in the order [commitOffsets] visits them. *)
Definition slots (m : AckedOffsets) : list (string * string * string * Z * Z) :=
  '(c, ct) ← range [] m;
  '(t, tg) ← range [c] ct;
  '(g, gp) ← range [c; t] tg;
  '(p, o) ← range [c; t; g] gp;
  [(c, t, g, p, o)].

(** A call settles its slot when it succeeds or finds the node missing. *)
Definition settled (err : option zkError) : bool :=
  match err with
  | None | Some ErrNoNode => true
  | Some (ErrOther _) => false
  end.

(** Replaying a call history against the store: each recorded error is the
    one the store returned at that point. *)
Fixpoint store_run (ks : list zkCall) (z : Zk) : option Zk :=
  match ks with
  | [] => Some z
  | k :: ks' =>
      let '(z', err) :=
        ResetConsumerGroupOffset (call_cluster k) (call_topic k) (call_group k)
          (call_partition k) (call_offset k) z in
      if decide (err = call_err k) then store_run ks' z' else None
  end.

(** What one flush did to the slot [c][t][g][p] that held [before]. *)
Definition flushed (before : option Z) (c t g : string) (p : Z)
    (new : list zkCall) (after : option Z) : Prop :=
  match before with
  | None => after = None ∧ filter (call_for c t g p) new = []
  | Some o =>
      if decide (o = -1) then
        after = Some (-1) ∧ filter (call_for c t g p) new = []
      else
        ∃ err,
          filter (call_for c t g p) new = [ZkCall c t g (strconv_Itoa p) o err] ∧
          after = Some (if settled err then -1 else o)
  end.

Definition commit_entry (e : string * string * string * Z * Z)
  : flushState → option flushState :=
  let '(c, t, g, p, o) := e in commit_slot c t g p o.

(** *** The committer goroutine and what runs beside it

    [ackCommitter] is a loop around a [select]; each arm of the select, each
    round of the waiting loop inside [shutdownOnce.Do], and the [close] that
    follows it is one step of the committer.  The steps of the other
    goroutines are interleaved with them. *)

Definition flushPerN : Z := 4000.

(** Where the committer stands. *)
Inductive pc :=
  | Selecting   (* at the select of the for loop *)
  | Waiting     (* in shutdownOnce.Do, after the AddInt32, in the waiting loop *)
  | Closing     (* left the waiting loop, before close(this.ackCh) *)
  | Exited.     (* returned *)

(** What the committer has done, in order. *)
Inductive action :=
  | ADraining                   (* atomic.AddInt32(&this.ackShutdown, -1) *)
  | APoll (v : Z)               (* atomic.LoadInt32(&this.ackShutdown) read v *)
  | AClose                      (* close(this.ackCh) *)
  | ARecord (acks : ackOffsets) (* a batch was written into ackedOffsets *)
  | AFlush                      (* this.commitOffsets() *)
  | AExit.                      (* return *)

Record server := Server {
  shutdownCh : bool;            (* gw.shutdownCh is closed *)
  ackShutdown : Z;              (* int32 *)
  ackCh : list ackOffsets;      (* the batches buffered in the channel *)
  ackCh_closed : bool;
  shutdownOnce : bool;          (* shutdownOnce.Do has been entered *)
  at_ : pc;
  n : Z;                        (* int64 *)
  offsets : flushState;
  handlers : nat;               (* ack handlers that may still send *)
  send_on_closed : bool;        (* a send hit the closed channel *)
  trace : list action
}.

Definition ackCh_cap : nat := 100.

Definition newSubServer (z : Zk) : server :=
  Server false 0 [] false false Selecting 0 (FlushState ∅ z []) 0 false [].

Definition set_offsets (st : flushState) (new : list action) (s : server) : server :=
  Server (shutdownCh s) (ackShutdown s) (ackCh s) (ackCh_closed s)
    (shutdownOnce s) (at_ s) (n s) st (handlers s) (send_on_closed s)
    (trace s ++ new).

Definition goto (l : pc) (new : list action) (s : server) : server :=
  Server (shutdownCh s) (ackShutdown s) (ackCh s) (ackCh_closed s)
    (shutdownOnce s) l (n s) (offsets s) (handlers s) (send_on_closed s)
    (trace s ++ new).

(** [case <-this.gw.shutdownCh]: ready once the channel is closed.  The first
    time, [shutdownOnce.Do] runs its function, which starts by decrementing
    [ackShutdown]; later on [Do] returns at once. *)
Definition select_shutdown (s : server) : option server :=
  match at_ s with
  | Selecting =>
      if shutdownCh s then
        if shutdownOnce s then Some s
        else
          Some (Server (shutdownCh s) (wrap32 (ackShutdown s - 1)) (ackCh s)
                  (ackCh_closed s) true Waiting (n s) (offsets s) (handlers s)
                  (send_on_closed s) (trace s ++ [ADraining]))
      else None
  | _ => None
  end.

(** One round of the waiting loop: leave it when the counter is at most -1,
    otherwise sleep and come back. *)
Definition poll (s : server) : option server :=
  match at_ s with
  | Waiting =>
      let v := ackShutdown s in
      if decide (v ≤ -1) then Some (goto Closing [APoll v] s)
      else Some (goto Waiting [APoll v] s)
  | _ => None
  end.

(** [close(this.ackCh)], which ends [shutdownOnce.Do]; closing a closed
    channel panics. *)
Definition close_ackCh (s : server) : option server :=
  match at_ s with
  | Closing =>
      if ackCh_closed s then None
      else
        Some (Server (shutdownCh s) (ackShutdown s) (ackCh s) true
                (shutdownOnce s) Selecting (n s) (offsets s) (handlers s)
                (send_on_closed s) (trace s ++ [AClose]))
  | _ => None
  end.

(** [case acks, ok := <-this.ackCh] with [ok]: record the batch, count it,
    flush every [flushPerN] batches. *)
Definition on_acks (acks : ackOffsets) (cnt : Z) (st : flushState)
  : option (Z * flushState * list action) :=
  m ← record_acks acks (acked st);
  let st1 := FlushState m (zk st) (calls st) in
  let cnt' := wrap64 (cnt + 1) in
  if decide (Z.rem cnt' flushPerN = 0) then
    st2 ← commitOffsets st1; Some (cnt', st2, [ARecord acks; AFlush])
  else Some (cnt', st1, [ARecord acks]).

(** The receive arm: a buffered batch if there is one; on the closed and
    drained channel, the final flush and the return; otherwise not ready. *)
Definition select_ack (s : server) : option server :=
  match at_ s with
  | Selecting =>
      match ackCh s with
      | acks :: rest =>
          '(cnt', st', new) ← on_acks acks (n s) (offsets s);
          Some (Server (shutdownCh s) (ackShutdown s) rest (ackCh_closed s)
                  (shutdownOnce s) Selecting cnt' st' (handlers s)
                  (send_on_closed s) (trace s ++ new))
      | [] =>
          if ackCh_closed s then
            st' ← commitOffsets (offsets s);
            Some (goto Exited [AExit] (set_offsets st' [AFlush] s))
          else None
      end
  | _ => None
  end.

(** [case <-ticker.C] *)
Definition select_tick (s : server) : option server :=
  match at_ s with
  | Selecting =>
      st' ← commitOffsets (offsets s); Some (set_offsets st' [AFlush] s)
  | _ => None
  end.

(** [close(this.shutdownCh)] in [Gateway.ServeForever]. *)
Definition signal_shutdown (s : server) : option server :=
  if shutdownCh s then None
  else
    Some (Server true (ackShutdown s) (ackCh s) (ackCh_closed s)
            (shutdownOnce s) (at_ s) (n s) (offsets s) (handlers s)
            (send_on_closed s) (trace s)).

(** Modelled from the spec: the ack-producing handlers, whose code is not
    among these files.  The committer "waits until all ack-producing handlers
    have exited (each decrements an ackShutdown counter)": a running handler
    holds one unit of [ackShutdown], taken when it starts and given back by
    the decrement when it exits; the counter starts at 0 in [newSubServer].
    While it runs it may send.  A send needs room in the channel, and on a
    closed channel it is the send-after-close fault.  The specification
    names nothing that keeps a handler from starting, at any moment. *)
Definition handler_begin (s : server) : option server :=
  if decide (Z.of_nat (handlers s) < 2 ^ 31 - 1) then
    Some (Server (shutdownCh s) (wrap32 (ackShutdown s + 1)) (ackCh s)
            (ackCh_closed s) (shutdownOnce s) (at_ s) (n s) (offsets s)
            (S (handlers s)) (send_on_closed s) (trace s))
  else None.

Definition handler_send (acks : ackOffsets) (s : server) : option server :=
  match handlers s with
  | O => None
  | S _ =>
      if ackCh_closed s then
        Some (Server (shutdownCh s) (ackShutdown s) (ackCh s) (ackCh_closed s)
                (shutdownOnce s) (at_ s) (n s) (offsets s) (handlers s)
                true (trace s))
      else if decide (length (ackCh s) < ackCh_cap)%nat then
        Some (Server (shutdownCh s) (ackShutdown s) (ackCh s ++ [acks])
                (ackCh_closed s) (shutdownOnce s) (at_ s) (n s) (offsets s)
                (handlers s) (send_on_closed s) (trace s))
      else None
  end.

Definition handler_end (s : server) : option server :=
  match handlers s with
  | O => None
  | S h =>
      Some (Server (shutdownCh s) (wrap32 (ackShutdown s - 1)) (ackCh s)
              (ackCh_closed s) (shutdownOnce s) (at_ s) (n s) (offsets s)
              h (send_on_closed s) (trace s))
  end.

Inductive event :=
  | Shutdown
  | SelectShutdown | Poll | Close | SelectAck | SelectTick
  | HandlerBegin | HandlerSend (acks : ackOffsets) | HandlerEnd.

(** One step of the interleaving; [None] when the step cannot be taken in
    this state (the goroutine is elsewhere or blocked) or panics. *)
Definition step (e : event) (s : server) : option server :=
  match e with
  | Shutdown => signal_shutdown s
  | SelectShutdown => select_shutdown s
  | Poll => poll s
  | Close => close_ackCh s
  | SelectAck => select_ack s
  | SelectTick => select_tick s
  | HandlerBegin => handler_begin s
  | HandlerSend acks => handler_send acks s
  | HandlerEnd => handler_end s
  end.

Definition run (evs : list event) (s : server) : option server :=
  range_fold step evs s.




(** **** Reading a slot after an assignment *)

Lemma assign4_Some c t g p v (m : AckedOffsets) :
  is_Some (get3 m c t g) → is_Some (assign4 c t g p v m).
Proof.
  unfold get3, get2, assign4. intros [gp Hgp].
  destruct (m !! c) as [ct|]; simpl in *; [|done].
  destruct (ct !! t) as [tg|]; simpl in *; [|done].
  destruct (tg !! g); simpl in *; [eauto | done].
Qed.

Lemma slot_assign4 c t g p v (m m' : AckedOffsets) c' t' g' p' :
  assign4 c t g p v m = Some m' →
  slot m' c' t' g' p' =
    if decide ((c', t', g', p') = (c, t, g, p)) then Some v
    else slot m c' t' g' p'.
Proof.
  unfold assign4, slot, get3, get2. intros Ha.
  destruct (m !! c) as [ct|] eqn:Hc; simpl in Ha; [|done].
  destruct (ct !! t) as [tg|] eqn:Ht; simpl in Ha; [|done].
  destruct (tg !! g) as [gp|] eqn:Hg; simpl in Ha; [|done].
  injection Ha as <-.
  destruct (decide (c' = c)) as [->|Hnc].
  2:{ rewrite lookup_insert_ne by done. case_decide; [congruence | done]. }
  rewrite lookup_insert_eq, Hc. simpl.
  destruct (decide (t' = t)) as [->|Hnt].
  2:{ rewrite lookup_insert_ne by done. case_decide; [congruence | done]. }
  rewrite lookup_insert_eq, Ht. simpl.
  destruct (decide (g' = g)) as [->|Hng].
  2:{ rewrite lookup_insert_ne by done. case_decide; [congruence | done]. }
  rewrite lookup_insert_eq, Hg. simpl.
  destruct (decide (p' = p)) as [->|Hnp].
  - rewrite lookup_insert_eq. by rewrite decide_True.
  - rewrite lookup_insert_ne by done. case_decide; [congruence | done].
Qed.

(** **** The visiting order enumerates every slot exactly once *)

Lemma elem_of_range `{Countable K} {V} path (m : gmap K V) k v :
  (k, v) ∈ range path m ↔ m !! k = Some v.
Proof. rewrite (range_perm path m). apply elem_of_map_to_list. Qed.

Lemma NoDup_range `{Countable K} {V} path (m : gmap K V) :
  NoDup (range path m).
Proof. rewrite (range_perm path m). apply NoDup_map_to_list. Qed.

Lemma elem_of_slots (m : AckedOffsets) c t g p o :
  (c, t, g, p, o) ∈ slots m ↔ slot m c t g p = Some o.
Proof.
  unfold slots, slot, get3, get2. split.
  - intros ([c1 ct]&([t1 tg]&([g1 gp]&([p1 o1]&Hin&Hp)%list_elem_of_bind&Hg)
      %list_elem_of_bind&Ht)%list_elem_of_bind&Hc)%list_elem_of_bind.
    apply list_elem_of_singleton in Hin. simplify_eq.
    apply elem_of_range in Hc, Ht, Hg, Hp.
    rewrite Hc. simpl. rewrite Ht. simpl. by rewrite Hg.
  - intros Hs.
    destruct (m !! c) as [ct|] eqn:Hc; simpl in Hs; [|done].
    destruct (ct !! t) as [tg|] eqn:Ht; simpl in Hs; [|done].
    destruct (tg !! g) as [gp|] eqn:Hg; simpl in Hs; [|done].
    apply list_elem_of_bind. exists (c, ct). split; [|by apply elem_of_range].
    apply list_elem_of_bind. exists (t, tg). split; [|by apply elem_of_range].
    apply list_elem_of_bind. exists (g, gp). split; [|by apply elem_of_range].
    apply list_elem_of_bind. exists (p, o). split; [|by apply elem_of_range].
    by apply list_elem_of_singleton.
Qed.

Lemma NoDup_slots (m : AckedOffsets) : NoDup (slots m).
Proof.
  unfold slots.
  apply NoDup_bind; [| |apply NoDup_range].
  { intros [c1 ct1] [c2 ct2] e Hc1 Hc2.
    intros ([t1 tg1]&([g1 gp1]&([p1 o1]&Hin1&_)%list_elem_of_bind&_)
      %list_elem_of_bind&_)%list_elem_of_bind.
    intros ([t2 tg2]&([g2 gp2]&([p2 o2]&Hin2&_)%list_elem_of_bind&_)
      %list_elem_of_bind&_)%list_elem_of_bind.
    apply list_elem_of_singleton in Hin1, Hin2. simplify_eq.
    apply elem_of_range in Hc1, Hc2. congruence. }
  intros [c ct] _.
  apply NoDup_bind; [| |apply NoDup_range].
  { intros [t1 tg1] [t2 tg2] e Ht1 Ht2.
    intros ([g1 gp1]&([p1 o1]&Hin1&_)%list_elem_of_bind&_)%list_elem_of_bind.
    intros ([g2 gp2]&([p2 o2]&Hin2&_)%list_elem_of_bind&_)%list_elem_of_bind.
    apply list_elem_of_singleton in Hin1, Hin2. simplify_eq.
    apply elem_of_range in Ht1, Ht2. congruence. }
  intros [t tg] _.
  apply NoDup_bind; [| |apply NoDup_range].
  { intros [g1 gp1] [g2 gp2] e Hg1 Hg2.
    intros ([p1 o1]&Hin1&_)%list_elem_of_bind.
    intros ([p2 o2]&Hin2&_)%list_elem_of_bind.
    apply list_elem_of_singleton in Hin1, Hin2. simplify_eq.
    apply elem_of_range in Hg1, Hg2. congruence. }
  intros [g gp] _.
  apply NoDup_bind; [| |apply NoDup_range].
  { intros [p1 o1] [p2 o2] e Hp1 Hp2 Hin1 Hin2.
    apply list_elem_of_singleton in Hin1, Hin2. simplify_eq.
    apply elem_of_range in Hp1, Hp2. congruence. }
  intros [p o] _. apply NoDup_singleton.
Qed.

(** The four nested loops are one loop over [slots]. *)
Lemma commitOffsets_slots st :
  commitOffsets st = range_fold commit_entry (slots (acked st)) st.
Proof.
  unfold commitOffsets, slots.
  rewrite <- range_fold_bind. apply range_fold_ext. intros [c ct] s1 _.
  rewrite <- range_fold_bind. apply range_fold_ext. intros [t tg] s2 _.
  rewrite <- range_fold_bind. apply range_fold_ext. intros [g gp] s3 _.
  rewrite <- range_fold_bind. apply range_fold_ext. intros [p o] s4 _.
  simpl. by destruct (commit_slot c t g p o s4).
Qed.

(** **** One slot *)

Lemma store_run_app ks1 ks2 z :
  store_run (ks1 ++ ks2) z = store_run ks1 z ≫= store_run ks2.
Proof.
  revert z. induction ks1 as [|k ks1 IH]; intros z; simpl; [done|].
  destruct (ResetConsumerGroupOffset _ _ _ _ _ z) as [z' err].
  case_decide; [apply IH | done].
Qed.

Lemma call_for_inv c t g p c' t' g' p' o err :
  call_for c t g p (ZkCall c' t' g' (strconv_Itoa p') o err) ↔
  (c', t', g', p') = (c, t, g, p).
Proof.
  unfold call_for, strconv_Itoa. simpl. split.
  - intros (-> & -> & -> & Hp). by apply (inj pretty) in Hp as ->.
  - intros [= -> -> -> ->]. done.
Qed.

Lemma commit_slot_sentinel c t g p st : commit_slot c t g p (-1) st = Some st.
Proof. unfold commit_slot. by rewrite decide_True. Qed.

Lemma commit_slot_call c t g p o st :
  o ≠ -1 → slot (acked st) c t g p = Some o →
  ∃ st' err,
    commit_slot c t g p o st = Some st' ∧
    calls st' = calls st ++ [ZkCall c t g (strconv_Itoa p) o err] ∧
    store_run [ZkCall c t g (strconv_Itoa p) o err] (zk st) = Some (zk st') ∧
    ∀ c' t' g' p',
      slot (acked st') c' t' g' p' =
        if decide ((c', t', g', p') = (c, t, g, p))
        then Some (if settled err then -1 else o)
        else slot (acked st) c' t' g' p'.
Proof.
  intros Ho Hs. unfold commit_slot. rewrite decide_False by done. simpl.
  destruct (ResetConsumerGroupOffset c t g (strconv_Itoa p) o (zk st))
    as [z' err] eqn:Hcall.
  assert (is_Some (assign4 c t g p (-1) (acked st))) as [m' Hm'].
  { apply assign4_Some. unfold slot in Hs.
    destruct (get3 (acked st) c t g); [eauto | done]. }
  destruct err as [[|msg]|]; simpl.
  - rewrite Hm'. simpl. eexists _, _. split_and!; [done|done|simpl; rewrite ?Hcall; simpl; by repeat case_decide|].
    intros. simpl. by apply slot_assign4.
  - eexists _, _. split_and!; [done|done|simpl; rewrite ?Hcall; simpl; by repeat case_decide|].
    intros. simpl. case_decide as Heq; [|done]. by injection Heq as -> -> -> ->.
  - rewrite Hm'. simpl. eexists _, _. split_and!; [done|done|simpl; rewrite ?Hcall; simpl; by repeat case_decide|].
    intros. simpl. by apply slot_assign4.
Qed.

(** **** All slots, in any order without repetition *)

Lemma commit_entries_spec (l : list (string * string * string * Z * Z)) st :
  NoDup l.*1 →
  (∀ c t g p o, (c, t, g, p, o) ∈ l → slot (acked st) c t g p = Some o) →
  ∃ st' new,
    range_fold commit_entry l st = Some st' ∧
    calls st' = calls st ++ new ∧
    store_run new (zk st) = Some (zk st') ∧
    (∀ c t g p, (c, t, g, p) ∉ l.*1 →
      slot (acked st') c t g p = slot (acked st) c t g p ∧
      filter (call_for c t g p) new = []) ∧
    (∀ c t g p o, (c, t, g, p, o) ∈ l →
      flushed (Some o) c t g p new (slot (acked st') c t g p)).
Proof.
  revert st. induction l as [|[[[[c0 t0] g0] p0] o0] l IH]; intros st Hnd Hl.
  { exists st, []. simpl. rewrite app_nil_r. split_and!; try done.
    intros ????? Hin. by apply elem_of_nil in Hin. }
  rewrite fmap_cons in Hnd. apply NoDup_cons in Hnd as [Hfresh Hnd]. simpl in Hfresh.
  assert (Hs0 : slot (acked st) c0 t0 g0 p0 = Some o0) by (apply Hl; left).
  assert (∃ st1 new0,
    commit_slot c0 t0 g0 p0 o0 st = Some st1 ∧
    calls st1 = calls st ++ new0 ∧
    store_run new0 (zk st) = Some (zk st1) ∧
    (∀ c t g p, (c, t, g, p) ≠ (c0, t0, g0, p0) →
      slot (acked st1) c t g p = slot (acked st) c t g p ∧
      filter (call_for c t g p) new0 = []) ∧
    flushed (Some o0) c0 t0 g0 p0 new0 (slot (acked st1) c0 t0 g0 p0))
    as (st1 & new0 & Hstep & Hcalls0 & Hrun0 & Hother0 & Hdone0).
  { unfold flushed. destruct (decide (o0 = -1)) as [->|Ho0].
    - exists st, []. rewrite commit_slot_sentinel, app_nil_r. by split_and!.
    - destruct (commit_slot_call c0 t0 g0 p0 o0 st Ho0 Hs0)
        as (st1 & err & Hstep & Hcalls & Hrun & Hslot).
      exists st1, [ZkCall c0 t0 g0 (strconv_Itoa p0) o0 err].
      split_and!; [done|done|done| |].
      + intros c t g p Hne. rewrite Hslot, decide_False by done. split; [done|].
        rewrite filter_cons_False; [done|]. by rewrite call_for_inv.
      + exists err. rewrite Hslot, decide_True by done. split; [|done].
        rewrite filter_cons_True; [done|]. by rewrite call_for_inv. }
  destruct (IH st1 Hnd) as (st' & new & Hfold & Hcalls & Hrun & Hother & Hdone).
  { intros c t g p o Hin.
    destruct (Hother0 c t g p) as [-> _]; [|apply Hl; by right].
    intros [= -> -> -> ->]. apply Hfresh.
    apply list_elem_of_fmap. by exists (c0, t0, g0, p0, o). }
  exists st', (new0 ++ new). simpl. rewrite Hstep. simpl.
  split_and!; [done| | | |].
  - by rewrite Hcalls, Hcalls0, (assoc_L (++)).
  - by rewrite store_run_app, Hrun0.
  - intros c t g p [Hne Hnin]%not_elem_of_cons.
    destruct (Hother c t g p Hnin) as [-> Hf], (Hother0 c t g p Hne) as [-> Hf0].
    by rewrite filter_app, Hf, Hf0.
  - intros c t g p o [Heq|Hin]%elem_of_cons.
    + injection Heq as -> -> -> -> ->.
      destruct (Hother c0 t0 g0 p0 Hfresh) as [-> Hf].
      revert Hdone0. unfold flushed. case_decide.
      * intros [? Hf0]. by rewrite filter_app, Hf, Hf0.
      * intros (err & Hf0 & ?). exists err. by rewrite filter_app, Hf, Hf0.
    + assert (Hne : (c, t, g, p) ≠ (c0, t0, g0, p0)).
      { intros [= -> -> -> ->]. apply Hfresh.
        apply list_elem_of_fmap. by exists (c0, t0, g0, p0, o). }
      destruct (Hother0 c t g p Hne) as [_ Hf0].
      specialize (Hdone c t g p o Hin). revert Hdone. unfold flushed.
      rewrite filter_app, Hf0. done.
Qed.

(** C3. One run of [commitOffsets], from any offsets [m], any store state
    and whatever order [range] picks, never panics; it leaves every slot
    holding the sentinel -1 untouched without calling the store; for every
    other slot it calls [ResetConsumerGroupOffset] exactly once, with the
    slot's offset, and afterwards the slot is -1 when that call succeeded or
    returned [ErrNoNode] and still holds its offset after any other error.
    Paths without a slot get none, and the recorded errors are those the
    store returned, in order. *)
Theorem commitOffsets_flush (m : AckedOffsets) (z : Zk) (h : list zkCall) :
  ∃ st' new,
    commitOffsets (FlushState m z h) = Some st' ∧
    calls st' = h ++ new ∧
    store_run new z = Some (zk st') ∧
    ∀ c t g p, flushed (slot m c t g p) c t g p new (slot (acked st') c t g p).
Proof.
  rewrite commitOffsets_slots. simpl.
  destruct (commit_entries_spec (slots m) (FlushState m z h))
    as (st' & new & Hfold & Hcalls & Hrun & Hother & Hdone).
  { apply NoDup_fmap_fst; [|apply NoDup_slots].
    intros [[[c t] g] p] o1 o2 H1%elem_of_slots H2%elem_of_slots. congruence. }
  { intros c t g p o. simpl. by rewrite elem_of_slots. }
  exists st', new. split_and!; [done..|].
  intros c t g p. destruct (slot m c t g p) as [o|] eqn:Hs.
  - apply Hdone. by apply elem_of_slots.
  - destruct (Hother c t g p) as [Hs' Hf]; [|simpl in Hs'; by rewrite Hs', Hs].
    intros ([k o] & Hk & Hin)%list_elem_of_fmap. simpl in Hk. subst k.
    apply elem_of_slots in Hin. congruence.
Qed.

(** **** The shutdown sequence *)

(** **** Flushing again *)

Lemma commit_entries_idle (l : list (string * string * string * Z * Z)) st :
  (∀ e, e ∈ l → e.2 = -1) → range_fold commit_entry l st = Some st.
Proof.
  induction l as [|[[[[c t] g] p] o] l IH]; intros Hl; simpl; [done|].
  assert (o = -1) as -> by (apply (Hl (c, t, g, p, o)); left).
  rewrite commit_slot_sentinel. simpl.
  apply IH. intros e He. apply Hl. by right.
Qed.

Lemma flush_outcome (m : AckedOffsets) (z : Zk) (h : list zkCall) :
  ∃ st' new,
    commitOffsets (FlushState m z h) = Some st' ∧
    calls st' = h ++ new ∧
    ∀ c t g p, flushed (slot m c t g p) c t g p new (slot (acked st') c t g p).
Proof.
  rewrite commitOffsets_slots. simpl.
  destruct (commit_entries_spec (slots m) (FlushState m z h))
    as (st' & new & Hfold & Hcalls & _ & Hother & Hdone).
  { apply NoDup_fmap_fst; [|apply NoDup_slots].
    intros [[[c t] g] p] o1 o2 H1%elem_of_slots H2%elem_of_slots. congruence. }
  { intros c t g p o. simpl. by rewrite elem_of_slots. }
  exists st', new. split_and!; [done..|].
  intros c t g p. destruct (slot m c t g p) as [o|] eqn:Hs.
  - apply Hdone. by apply elem_of_slots.
  - destruct (Hother c t g p) as [Hs' Hf]; [|simpl in Hs'; by rewrite Hs', Hs].
    intros ([k o] & Hk & Hin)%list_elem_of_fmap. simpl in Hk. subst k.
    apply elem_of_slots in Hin. congruence.
Qed.

(** When every call of a flush succeeded or found its node missing, every
    slot is at the sentinel afterwards, and flushing again at once changes
    nothing and calls the store for nothing. *)
Theorem commitOffsets_again (m : AckedOffsets) (z : Zk) (h : list zkCall)
    (st1 : flushState) :
  commitOffsets (FlushState m z h) = Some st1 →
  Forall (λ k, settled (call_err k) = true) (drop (length h) (calls st1)) →
  (∀ c t g p, slot (acked st1) c t g p = (λ _, -1) <$> slot m c t g p) ∧
  commitOffsets st1 = Some st1.
Proof.
  intros Hflush Hsettled.
  destruct (flush_outcome m z h) as (st' & new & Hflush' & Hcalls & Hslots).
  rewrite Hflush in Hflush'. injection Hflush' as <-.
  rewrite Hcalls, drop_app_length in Hsettled.
  assert (Hall : ∀ c t g p, slot (acked st1) c t g p = (λ _, -1) <$> slot m c t g p).
  { intros c t g p. specialize (Hslots c t g p). unfold flushed in Hslots.
    destruct (slot m c t g p) as [o|]; simpl; [|by destruct Hslots].
    case_decide; [by destruct Hslots|].
    destruct Hslots as (err & Hf & ->).
    assert (Hin : ZkCall c t g (strconv_Itoa p) o err ∈ new).
    { eapply (list_elem_of_filter (call_for c t g p)). rewrite Hf. by left. }
    rewrite Forall_forall in Hsettled. apply Hsettled in Hin. simpl in Hin.
    by rewrite Hin. }
  split; [done|].
  rewrite commitOffsets_slots. apply commit_entries_idle.
  intros [[[[c t] g] p] o] Hin%elem_of_slots. simpl.
  rewrite Hall in Hin. destruct (slot m c t g p); simpl in Hin; [|done].
  by injection Hin as <-.
Qed.

(** **** The shutdown sequence *)

















End Committer.

(** A store that refuses partition 3 with [ErrNoNode], fails on partition 5
    and accepts everything else; it counts the calls it has served. *)
Definition demo_store (c t g p : string) (o : Z) (served : nat)
  : nat * option zkError :=
  (S served,
   if decide (p = "3") then Some ErrNoNode
   else if decide (p = "5") then Some (ErrOther "connection loss")
   else None).

Definition demo_range `{Countable K} {V : Type} (path : list string)
    (m : gmap K V) : list (K * V) := map_to_list m.

Definition demo_offsets : AckedOffsets :=
  {[ "c" := {[ "t" := {[ "g" := {[ 0 := -1; 3 := 42; 5 := 7; 6 := 8 ]} ]} ]} ]}.

Lemma commitOffsets_flush_witness :
  ∃ st' new,
    commitOffsets nat demo_store (@demo_range) (FlushState nat demo_offsets 0%nat [])
      = Some st' ∧
    calls nat st' = [] ++ new ∧
    store_run nat demo_store new 0%nat = Some (zk nat st') ∧
    ∀ c t g p,
      flushed (slot demo_offsets c t g p) c t g p new (slot (acked nat st') c t g p).
Proof.
  apply (commitOffsets_flush nat demo_store (@demo_range)).
  intros. reflexivity.
Defined.

(** An interleaving up to the close of the channel: a handler is running
    when the signal arrives, sends its batch and exits. *)
Definition demo_events : list event :=
  [HandlerBegin; Shutdown; SelectShutdown; Poll;
   HandlerSend [AckOffset "c" "t" "g" 0 10]; HandlerEnd; Poll; Close].


(** The rest of that interleaving: the buffered batch is received and
    written, then the receive on the drained channel flushes it to the store
    and the committer returns. *)
Example demo_events_exit :
  ∃ s, run nat demo_store (@demo_range) (demo_events ++ [SelectAck; SelectAck])
         (newSubServer nat 0%nat) = Some s ∧
       at_ nat s = Exited ∧
       trace nat s =
         [ADraining; APoll 0; APoll (-1); AClose;
          ARecord [AckOffset "c" "t" "g" 0 10]; AFlush; AExit] ∧
       calls nat (offsets nat s) = [ZkCall "c" "t" "g" "0" 10 None] ∧
       slot (acked nat (offsets nat s)) "c" "t" "g" 0 = Some (-1).
Proof. eexists. split; [vm_compute; reflexivity|]. by vm_compute. Qed.

(** While a handler is running the committer stays in its wait and receives
    nothing: with the channel full, the handler's send cannot go through and
    a poll finds the counter at 0 again. *)
Example full_channel_wait :
  ∃ s, run nat demo_store (@demo_range)
         (HandlerBegin :: replicate 100 (HandlerSend []) ++
          [Shutdown; SelectShutdown; Poll])
         (newSubServer nat 0%nat) = Some s ∧
       at_ nat s = Waiting ∧ handlers nat s = 1%nat ∧
       length (ackCh nat s) = 100%nat ∧
       step nat demo_store (@demo_range) (HandlerSend []) s = None ∧
       (at_ nat <$> step nat demo_store (@demo_range) Poll s) = Some Waiting.
Proof. eexists. split; [vm_compute; reflexivity|]. by vm_compute. Qed.

(** A handler that starts after the committer has read the counter for the
    last time is not waited for. *)
Definition late_handler : list event :=
  [Shutdown; SelectShutdown; Poll; HandlerBegin; Close].


(** Its send is the send-after-close fault. *)
Example late_handler_fault :
  ∃ s, run nat demo_store (@demo_range)
         (late_handler ++ [HandlerSend [AckOffset "c" "t" "g" 0 10]])
         (newSubServer nat 0%nat) = Some s ∧
       ackCh_closed nat s = true ∧ handlers nat s = 1%nat ∧
       send_on_closed nat s = true ∧
       trace nat s = [ADraining; APoll (-1); AClose].
Proof. eexists. split; [vm_compute; reflexivity|]. by vm_compute. Qed.

Definition settled_offsets : AckedOffsets :=
  {[ "c" := {[ "t" := {[ "g" := {[ 0 := -1; 3 := 42; 6 := 8 ]} ]} ]} ]}.

Lemma commitOffsets_again_witness :
  ∃ st1,
    commitOffsets nat demo_store (@demo_range)
      (FlushState nat settled_offsets 0%nat []) = Some st1 ∧
    calls nat st1 =
      [ZkCall "c" "t" "g" "3" 42 (Some ErrNoNode); ZkCall "c" "t" "g" "6" 8 None] ∧
    (∀ c t g p, slot (acked nat st1) c t g p =
                (λ _, -1) <$> slot settled_offsets c t g p) ∧
    commitOffsets nat demo_store (@demo_range) st1 = Some st1.
Proof.
  eexists. split; [vm_compute; reflexivity|]. split; [reflexivity|].
  apply (commitOffsets_again nat demo_store (@demo_range)
           (λ _ _ _ _ _ _, reflexivity _) settled_offsets 0%nat []).
  - vm_compute. reflexivity.
  - vm_compute. by repeat constructor.
Defined.

(** **** Recording a batch *)

(** The last write of the loop body lands in the slot the ack names. *)
Lemma record_ack_slot ack (m m' : AckedOffsets) :
  record_ack ack m = Some m' →
  slot m' (cluster ack) (topic ack) (group ack) (Partition ack) = Some (Offset ack).
Proof.
  unfold record_ack. intros Hrec.
  destruct (match get2 _ (cluster ack) (topic ack) with
            | Some _ => _ | None => _ end) as [m2|]; simpl in Hrec; [|done].
  destruct (match get2 m2 (topic ack) (group ack) with
            | Some _ => _ | None => _ end) as [m3|]; simpl in Hrec; [|done].
  rewrite (slot_assign4 _ _ _ _ _ _ _ _ _ _ _ Hrec). by rewrite decide_True.
Qed.

(** The third presence test looks under [ackedOffsets[ack.topic]]: unless a
    cluster named like the ack's topic holds a topic named like the ack's
    group, the group's partitions are replaced by a fresh map, and only the
    ack's own partition is left in it. *)
Lemma record_ack_resets_group ack (m : AckedOffsets) :
  cluster ack ≠ topic ack →
  get2 m (topic ack) (group ack) = None →
  ∃ m', record_ack ack m = Some m' ∧
    get3 m' (cluster ack) (topic ack) (group ack) =
      Some {[ Partition ack := Offset ack ]}.
Proof.
  destruct ack as [c t g p o]. simpl. intros Hct Hn.
  unfold record_ack, get3, get2, assign1, assign2, assign3, assign4 in *. simpl.
  destruct (m !! c) as [ct|] eqn:Hc; simpl.
  - rewrite Hc. simpl. destruct (ct !! t) as [tg|] eqn:Ht; simpl.
    + repeat first
        [ rewrite lookup_insert_eq | rewrite lookup_insert_ne by done
        | rewrite Hn | rewrite Hc | rewrite Ht | progress simpl ].
      eexists. split; [done|].
      repeat first [ rewrite lookup_insert_eq | progress simpl ].
      by rewrite insert_empty.
    + repeat first
        [ rewrite lookup_insert_eq | rewrite lookup_insert_ne by done
        | rewrite Hn | rewrite Hc | progress simpl ].
      eexists. split; [done|].
      repeat first [ rewrite lookup_insert_eq | progress simpl ].
      by rewrite insert_empty.
  - repeat first
      [ rewrite lookup_insert_eq | rewrite lookup_insert_ne by done
      | rewrite lookup_empty | rewrite Hn | progress simpl ].
    eexists. split; [done|].
    repeat first [ rewrite lookup_insert_eq | progress simpl ].
    by rewrite insert_empty.
Qed.

(** C1, at a batch of two acks for two partitions of one group, received
    with nothing recorded yet: the batch is processed without a flush, and
    afterwards the group holds partition 1 only; the offset 10 acknowledged
    for partition 0 is gone. *)
Theorem record_acks_loses_partition :
  let acks := [AckOffset "c" "t" "g" 0 10; AckOffset "c" "t" "g" 1 20] in
  ∃ m,
    record_acks acks ∅ = Some m ∧
    on_acks nat demo_store (@demo_range) acks 0 (FlushState nat ∅ 0%nat []) =
      Some (1, FlushState nat m 0%nat [], [ARecord acks]) ∧
    get3 m "c" "t" "g" = Some {[ 1 := 20 ]} ∧
    slot m "c" "t" "g" 0 = None ∧
    slot m "c" "t" "g" 1 = Some 20.
Proof.
  eexists. split; [vm_compute; reflexivity|]. by vm_compute.
Qed.

(** When a cluster named like the ack's topic does hold a topic named like
    the ack's group, the partition map of a new group is never made, and the
    final write goes into the nil map. *)
Example record_acks_nil_map :
  record_acks [AckOffset "t" "g" "x" 0 1; AckOffset "c" "t" "g" 0 1] ∅ = None.
Proof. by vm_compute. Qed.

(** **** What recording an ack leaves alone, and when it panics *)

(** The three presence tests of the loop body, one by one. *)
Definition with_cluster (c : string) (m : AckedOffsets) : AckedOffsets :=
  match m !! c with
  | Some _ => m
  | None => assign1 c ∅ m
  end.

Definition with_topic (c t : string) (m : AckedOffsets) : option AckedOffsets :=
  match get2 m c t with
  | Some _ => Some m
  | None => assign2 c t ∅ m
  end.

Definition with_group (c t g : string) (m : AckedOffsets) : option AckedOffsets :=
  match get2 m t g with
  | Some _ => Some m
  | None => assign3 c t g ∅ m
  end.

Lemma record_ack_steps ack m :
  record_ack ack m =
    (with_topic (cluster ack) (topic ack) (with_cluster (cluster ack) m)
     ≫= with_group (cluster ack) (topic ack) (group ack))
    ≫= assign4 (cluster ack) (topic ack) (group ack) (Partition ack) (Offset ack).
Proof.
  unfold record_ack, with_topic, with_group, with_cluster.
  by destruct (match get2 _ (cluster ack) (topic ack) with
               | Some _ => _ | None => _ end).
Qed.

Lemma get2_insert c ct (m : AckedOffsets) c' t' :
  get2 (<[c := ct]> m) c' t' =
    if decide (c' = c) then ct !! t' else get2 m c' t'.
Proof.
  unfold get2. case_decide as Hc.
  - subst. by rewrite lookup_insert_eq.
  - by rewrite lookup_insert_ne.
Qed.

Lemma with_cluster_get2 c (m : AckedOffsets) c' t' :
  get2 (with_cluster c m) c' t' = get2 m c' t'.
Proof.
  unfold with_cluster, assign1. destruct (m !! c) eqn:Hc; [done|].
  rewrite get2_insert. case_decide; [|done]. subst. unfold get2. by rewrite Hc.
Qed.

Lemma with_cluster_Some c (m : AckedOffsets) : is_Some (with_cluster c m !! c).
Proof.
  unfold with_cluster, assign1. destruct (m !! c) eqn:Hc; [by rewrite Hc|].
  by rewrite lookup_insert_eq.
Qed.

(** The second test never panics once the cluster is there, and makes no
    group appear. *)
Lemma with_topic_spec c t (m : AckedOffsets) :
  is_Some (m !! c) →
  ∃ m', with_topic c t m = Some m' ∧
    is_Some (get2 m' c t) ∧
    (∀ c' t' g', get3 m' c' t' g' = get3 m c' t' g') ∧
    (∀ c' t', (c', t') ≠ (c, t) → get2 m' c' t' = get2 m c' t').
Proof.
  intros [ct Hc]. unfold with_topic.
  destruct (get2 m c t) as [tg|] eqn:Hct.
  { exists m. rewrite Hct. by split_and!. }
  unfold assign2. rewrite Hc. simpl.
  assert (Ht : ct !! t = None).
  { unfold get2 in Hct. by rewrite Hc in Hct. }
  eexists. split; [done|]. split_and!.
  - rewrite get2_insert, decide_True by done. by rewrite lookup_insert_eq.
  - intros c' t' g'. unfold get3. rewrite get2_insert. case_decide; [|done].
    subst. unfold get2. rewrite Hc. simpl.
    destruct (decide (t' = t)) as [->|Hne].
    + by rewrite lookup_insert_eq, Ht.
    + by rewrite lookup_insert_ne.
  - intros c' t' Hne. rewrite get2_insert. case_decide; [|done].
    subst. unfold get2. rewrite Hc. simpl.
    rewrite lookup_insert_ne; [done|]. congruence.
Qed.

Lemma get3_assign3 c t g v (m m' : AckedOffsets) c' t' g' :
  assign3 c t g v m = Some m' →
  get3 m' c' t' g' =
    if decide ((c', t', g') = (c, t, g)) then Some v else get3 m c' t' g'.
Proof.
  unfold assign3, get3, get2. intros Ha.
  destruct (m !! c) as [ct|] eqn:Hc; simpl in Ha; [|done].
  destruct (ct !! t) as [tg|] eqn:Ht; simpl in Ha; [|done].
  injection Ha as <-.
  destruct (decide (c' = c)) as [->|Hnc].
  2:{ rewrite lookup_insert_ne by done. case_decide; [congruence | done]. }
  rewrite lookup_insert_eq, Hc. simpl.
  destruct (decide (t' = t)) as [->|Hnt].
  2:{ rewrite lookup_insert_ne by done. case_decide; [congruence | done]. }
  rewrite lookup_insert_eq, Ht. simpl.
  destruct (decide (g' = g)) as [->|Hng].
  - rewrite lookup_insert_eq. by rewrite decide_True.
  - rewrite lookup_insert_ne by done. case_decide; [congruence | done].
Qed.

Lemma get3_assign4 c t g p v (m m' : AckedOffsets) c' t' g' :
  assign4 c t g p v m = Some m' → (c', t', g') ≠ (c, t, g) →
  get3 m' c' t' g' = get3 m c' t' g'.
Proof.
  unfold assign4, get3, get2. intros Ha Hne.
  destruct (m !! c) as [ct|] eqn:Hc; simpl in Ha; [|done].
  destruct (ct !! t) as [tg|] eqn:Ht; simpl in Ha; [|done].
  destruct (tg !! g) as [gp|] eqn:Hg; simpl in Ha; [|done].
  injection Ha as <-.
  destruct (decide (c' = c)) as [->|Hnc]; [|by rewrite lookup_insert_ne].
  rewrite lookup_insert_eq, Hc. simpl.
  destruct (decide (t' = t)) as [->|Hnt]; [|by rewrite lookup_insert_ne].
  rewrite lookup_insert_eq, Ht. simpl.
  rewrite lookup_insert_ne; [done|]. congruence.
Qed.

Lemma assign3_Some c t g v (m : AckedOffsets) :
  is_Some (get2 m c t) → is_Some (assign3 c t g v m).
Proof.
  unfold get2, assign3. intros [tg Htg].
  destruct (m !! c) as [ct|]; simpl in *; [|done].
  destruct (ct !! t); simpl in *; [eauto | done].
Qed.

Lemma assign4_None c t g p v (m : AckedOffsets) :
  get3 m c t g = None → assign4 c t g p v m = None.
Proof.
  unfold get3, get2, assign4. intros Hn.
  destruct (m !! c) as [ct|]; simpl in *; [|done].
  destruct (ct !! t) as [tg|]; simpl in *; [|done].
  by rewrite Hn.
Qed.

(** Whenever the loop body completes for an ack, the ack's slot holds its
    offset and the partitions of every other group, in whatever cluster and
    topic, are as they were. *)
Theorem record_ack_frame (ack : ackOffset) (m m' : AckedOffsets) :
  record_ack ack m = Some m' →
  slot m' (cluster ack) (topic ack) (group ack) (Partition ack) = Some (Offset ack) ∧
  ∀ c t g, (c, t, g) ≠ (cluster ack, topic ack, group ack) →
    get3 m' c t g = get3 m c t g.
Proof.
  intros Hrec. split; [by apply (record_ack_slot ack m)|].
  intros c t g Hne. rewrite record_ack_steps in Hrec.
  destruct (with_topic_spec (cluster ack) (topic ack) _
              (with_cluster_Some (cluster ack) m)) as (m2 & H2 & _ & Hsame & _).
  rewrite H2 in Hrec. simpl in Hrec.
  destruct (with_group (cluster ack) (topic ack) (group ack) m2) as [m3|] eqn:H3;
    simpl in Hrec; [|done].
  rewrite (get3_assign4 _ _ _ _ _ _ _ _ _ _ Hrec Hne).
  assert (get3 m3 c t g = get3 m2 c t g) as ->.
  { unfold with_group in H3. destruct (get2 m2 (topic ack) (group ack)).
    - by injection H3 as <-.
    - rewrite (get3_assign3 _ _ _ _ _ _ _ _ _ H3). by rewrite decide_False. }
  rewrite Hsame. unfold get3. by rewrite with_cluster_get2.
Qed.

Lemma record_ack_frame_witness :
  let ack := AckOffset "c" "t" "g" 1 20 in
  let m : AckedOffsets :=
    {[ "c" := {[ "t" := {[ "h" := {[ 0 := 10 ]} ]} ]} ]} in
  let m' : AckedOffsets :=
    {[ "c" := {[ "t" := {[ "h" := {[ 0 := 10 ]}; "g" := {[ 1 := 20 ]} ]} ]} ]} in
  slot m' "c" "t" "g" 1 = Some 20 ∧
  ∀ c t g, (c, t, g) ≠ ("c", "t", "g") → get3 m' c t g = get3 m c t g.
Proof.
  intros ack m m'. apply (record_ack_frame ack m m'). by vm_compute.
Defined.

(** For an ack whose cluster and topic differ, the loop body panics exactly
    when some cluster named like the ack's topic holds a topic named like the
    ack's group while the ack's own group has no partition map yet. *)
Theorem record_ack_panics (ack : ackOffset) (m : AckedOffsets) :
  cluster ack ≠ topic ack →
  (record_ack ack m = None ↔
   is_Some (get2 m (topic ack) (group ack)) ∧
   get3 m (cluster ack) (topic ack) (group ack) = None).
Proof.
  intros Hct. rewrite record_ack_steps.
  destruct (with_topic_spec (cluster ack) (topic ack) _
              (with_cluster_Some (cluster ack) m))
    as (m2 & H2 & Hpresent & Hget3 & Hget2).
  rewrite H2. simpl.
  assert (Htg : get2 m2 (topic ack) (group ack) = get2 m (topic ack) (group ack)).
  { rewrite Hget2 by congruence. apply with_cluster_get2. }
  assert (Hg : get3 m2 (cluster ack) (topic ack) (group ack) =
               get3 m (cluster ack) (topic ack) (group ack)).
  { rewrite Hget3. unfold get3. by rewrite with_cluster_get2. }
  unfold with_group. rewrite Htg.
  destruct (get2 m (topic ack) (group ack)) as [x|] eqn:Hx; simpl.
  - destruct (get3 m (cluster ack) (topic ack) (group ack)) as [gp|] eqn:Hgp.
    + destruct (assign4_Some (cluster ack) (topic ack) (group ack)
                  (Partition ack) (Offset ack) m2) as [m' ->].
      { by rewrite Hg. }
      split; [done|]. by intros [_ ?].
    + rewrite assign4_None by done. by split.
  - destruct (assign3_Some (cluster ack) (topic ack) (group ack) ∅ m2 Hpresent)
      as [m3 H3].
    rewrite H3. simpl.
    destruct (assign4_Some (cluster ack) (topic ack) (group ack)
                (Partition ack) (Offset ack) m3) as [m' ->].
    { rewrite (get3_assign3 _ _ _ _ _ _ _ _ _ H3). by rewrite decide_True. }
    split; [done|]. by intros [[? ?] _].
Qed.

Lemma record_ack_panics_witness :
  let ack := AckOffset "c" "t" "g" 0 1 in
  let m : AckedOffsets := {[ "t" := {[ "g" := ∅ ]} ]} in
  record_ack ack m = None ↔
  is_Some (get2 m "t" "g") ∧ get3 m "c" "t" "g" = None.
Proof.
  intros ack m. apply (record_ack_panics ack m). done.
Defined.

(** *** The idle-connection tracker

    [connStateHandler] is the [ConnState] callback of the HTTP servers.  A
    connection is known by its identity; [RemoteAddr] gives its remote
    address.  The gateway pointer [this.gw] may be nil, as the callback's own
    tests for it show; a gateway is known here by whether its [shutdownCh] is
    closed, which the [select] of the [StateIdle] case reads. *)

Inductive ConnState :=
  StateNew | StateActive | StateIdle | StateHijacked | StateClosed.

Record tracker := Tracker {
  gw : option bool;              (* nil, or whether gw.shutdownCh is closed *)
  idleConns : gset nat;
  idleConnsWg : Z;               (* WaitGroup counter *)
  activeConnN : Z;               (* int32 *)
  closedConnCh : list string;    (* buffered, capacity 1 << 10 *)
  conn_closes : list nat;        (* the connections c.Close() was called on *)
  ConcurrentSub : Z;
  ConcurrentSubWs : Z
}.

Definition closedConnCh_cap : nat := 1024.

Section ConnState.

Variable RemoteAddr : nat → string.
(** [Options.DisableMetrics] *)
Variable DisableMetrics : bool.

(** [this.gw != nil && !Options.DisableMetrics] *)
Definition metrics (s : tracker) : bool :=
  bool_decide (gw s ≠ None) && negb DisableMetrics.

(** [None]: the callback does not return, because [this.gw] is nil where it
    is dereferenced, the WaitGroup counter would go negative (both panics),
    or [closedConnCh] is full (the send blocks). *)
Definition connStateHandler (c : nat) (cs : ConnState) (s : tracker)
  : option tracker :=
  match cs with
  | StateNew =>
      if decide (idleConnsWg s + 1 < 0) then None
      else
        Some (Tracker (gw s) (idleConns s) (idleConnsWg s + 1)
                (wrap32 (activeConnN s + 1)) (closedConnCh s) (conn_closes s)
                (if metrics s then ConcurrentSub s + 1 else ConcurrentSub s)
                (ConcurrentSubWs s))
  | StateActive =>
      Some (Tracker (gw s) (idleConns s ∖ {[c]}) (idleConnsWg s)
              (activeConnN s) (closedConnCh s) (conn_closes s)
              (ConcurrentSub s) (ConcurrentSubWs s))
  | StateIdle =>
      match gw s with
      | None => None
      | Some true =>
          (* actively close the client safely because IO is all done *)
          Some (Tracker (gw s) (idleConns s ∖ {[c]}) (idleConnsWg s)
                  (activeConnN s) (closedConnCh s) (conn_closes s ++ [c])
                  (ConcurrentSub s) (ConcurrentSubWs s))
      | Some false =>
          Some (Tracker (gw s) ({[c]} ∪ idleConns s) (idleConnsWg s)
                  (activeConnN s) (closedConnCh s) (conn_closes s)
                  (ConcurrentSub s) (ConcurrentSubWs s))
      end
  | StateHijacked =>
      (* websocket steals the socket *)
      Some (Tracker (gw s) (idleConns s ∖ {[c]}) (idleConnsWg s)
              (wrap32 (activeConnN s - 1)) (closedConnCh s) (conn_closes s)
              (if metrics s then ConcurrentSub s - 1 else ConcurrentSub s)
              (if metrics s then ConcurrentSubWs s + 1 else ConcurrentSubWs s))
  | StateClosed =>
      if decide (length (closedConnCh s) < closedConnCh_cap)%nat then
        if decide (idleConnsWg s - 1 < 0) then None
        else
          Some (Tracker (gw s) (idleConns s ∖ {[c]})
                  (idleConnsWg s - 1) (wrap32 (activeConnN s - 1))
                  (closedConnCh s ++ [RemoteAddr c]) (conn_closes s)
                  (if metrics s then ConcurrentSub s - 1 else ConcurrentSub s)
                  (ConcurrentSubWs s))
      else None
  end.

(** A sequence of callbacks, each for some connection. *)
Definition callbacks (cbs : list (nat * ConnState)) (s : tracker)
  : option tracker :=
  range_fold (λ '(c, cs), connStateHandler c cs) cbs s.

Lemma connStateHandler_gw c cs s s' :
  connStateHandler c cs s = Some s' → gw s' = gw s.
Proof.
  destruct cs; simpl; repeat case_decide; try destruct (gw s) as [[|]|] eqn:?;
    intros [= <-]; done.
Qed.

(** Once [gw.shutdownCh] is closed, a callback never enlarges the idle set. *)
Lemma connStateHandler_no_add c cs s s' :
  gw s = Some true → connStateHandler c cs s = Some s' →
  idleConns s' ⊆ idleConns s.
Proof.
  intros Hsh. destruct cs; simpl; rewrite ?Hsh; repeat case_decide;
    intros [= <-]; simpl; set_solver.
Qed.

Lemma callbacks_no_add cbs s s' :
  gw s = Some true → callbacks cbs s = Some s' →
  idleConns s' ⊆ idleConns s ∧ gw s' = Some true.
Proof.
  unfold callbacks. revert s. induction cbs as [|[c cs] cbs IH]; intros s Hsh; simpl.
  - by intros [= <-].
  - destruct (connStateHandler c cs s) as [s1|] eqn:Hstep; simpl; [|done].
    intros Hrest.
    pose proof (connStateHandler_no_add _ _ _ _ Hsh Hstep) as Hsub.
    pose proof (connStateHandler_gw _ _ _ _ Hstep) as Hsh1.
    rewrite Hsh in Hsh1. destruct (IH s1 Hsh1 Hrest) as [Hsub' ?].
    split; [set_solver|done].
Qed.

(** **** The select of [StateIdle], step by step

    The [StateIdle] case takes its [select] first and [idleConnsLock] only
    afterwards, inside the arm the select chose; [Gateway.ServeForever]
    closes [gw.shutdownCh] from a goroutine of its own.  The server calls
    the callback of one connection from that connection's goroutine, one
    call after the other, and those of different connections side by
    side.  So between the select of a callback and the arm it chose, the
    channel may be closed and other connections' callbacks may run. *)

Record conns := Conns {
  tracked : tracker;
  adding : gset nat;   (* callbacks past their select, on the default arm *)
  closing : gset nat   (* callbacks past their select, on the shutdownCh arm *)
}.

Inductive conn_event :=
  | IdleSelect (c : nat)                  (* the select of a StateIdle callback *)
  | IdleLocked (c : nat)                  (* the arm it chose *)
  | Callback (c : nat) (cs : ConnState)   (* a callback from start to end *)
  | CloseShutdownCh.                      (* close(this.shutdownCh) *)

(** [select { case <-this.gw.shutdownCh: ... default: ... }]: the receive is
    ready exactly when the channel is closed. *)
Definition idle_select (c : nat) (s : conns) : option conns :=
  if decide (c ∈ adding s ∪ closing s) then None
  else
    match gw (tracked s) with
    | None => None
    | Some true => Some (Conns (tracked s) (adding s) ({[c]} ∪ closing s))
    | Some false => Some (Conns (tracked s) ({[c]} ∪ adding s) (closing s))
    end.

Definition idle_locked (c : nat) (s : conns) : option conns :=
  let t := tracked s in
  if decide (c ∈ closing s) then
    (* actively close the client safely because IO is all done *)
    Some (Conns
            (Tracker (gw t) (idleConns t ∖ {[c]}) (idleConnsWg t)
               (activeConnN t) (closedConnCh t) (conn_closes t ++ [c])
               (ConcurrentSub t) (ConcurrentSubWs t))
            (adding s) (closing s ∖ {[c]}))
  else if decide (c ∈ adding s) then
    Some (Conns
            (Tracker (gw t) ({[c]} ∪ idleConns t) (idleConnsWg t)
               (activeConnN t) (closedConnCh t) (conn_closes t)
               (ConcurrentSub t) (ConcurrentSubWs t))
            (adding s ∖ {[c]}) (closing s))
  else None.

Definition whole_callback (c : nat) (cs : ConnState) (s : conns) : option conns :=
  if decide (c ∈ adding s ∪ closing s) then None
  else t ← connStateHandler c cs (tracked s); Some (Conns t (adding s) (closing s)).

(** Closing a closed channel panics. *)
Definition close_shutdownCh (s : conns) : option conns :=
  let t := tracked s in
  match gw t with
  | Some false =>
      Some (Conns
              (Tracker (Some true) (idleConns t) (idleConnsWg t) (activeConnN t)
                 (closedConnCh t) (conn_closes t) (ConcurrentSub t)
                 (ConcurrentSubWs t))
              (adding s) (closing s))
  | _ => None
  end.

(** [None]: the step cannot be taken here, or panics. *)
Definition conn_step (e : conn_event) (s : conns) : option conns :=
  match e with
  | IdleSelect c => idle_select c s
  | IdleLocked c => idle_locked c s
  | Callback c cs => whole_callback c cs s
  | CloseShutdownCh => close_shutdownCh s
  end.

Definition conn_run (evs : list conn_event) (s : conns) : option conns :=
  range_fold conn_step evs s.

(** A [StateIdle] callback that nothing interrupts is its select followed
    by the arm. *)
Lemma idle_select_locked c s :
  conn_run [IdleSelect c; IdleLocked c] s = conn_step (Callback c StateIdle) s.
Proof.
  unfold conn_run. cbn [range_fold conn_step]. unfold idle_select, whole_callback.
  case_decide as Hc; [done|]. cbn [connStateHandler].
  destruct s as [t a cl]. cbn [tracked adding closing] in *.
  destruct (gw t) as [[|]|] eqn:Hgw; cbn [mbind option_bind range_fold]; [| |done];
    unfold idle_locked; cbn [tracked adding closing].
  - rewrite (decide_True (P := c ∈ {[c]} ∪ cl)) by set_solver.
    rewrite Hgw. cbn [mbind option_bind]. do 2 f_equal. set_solver.
  - rewrite (decide_False (P := c ∈ cl)) by set_solver.
    rewrite (decide_True (P := c ∈ {[c]} ∪ a)) by set_solver.
    rewrite Hgw. cbn [mbind option_bind]. do 2 f_equal. set_solver.
Qed.

(** The last clause of the rule as the specification words it: after
    shutdown begins no connection is ever added to the idle set. *)
Definition never_added_after_shutdown : Prop :=
  ∀ t evs1 evs2 s1 s2,
    conn_run evs1 (Conns t ∅ ∅) = Some s1 → gw (tracked s1) = Some true →
    conn_run evs2 s1 = Some s2 →
    idleConns (tracked s2) ⊆ idleConns (tracked s1).

(** What holds in every state reached from a tracker with no callback under
    way. *)
Definition arms_apart (s : conns) : Prop := adding s ## closing s.

Lemma conn_step_apart e s s' :
  arms_apart s → conn_step e s = Some s' → arms_apart s'.
Proof.
  unfold arms_apart. intros Hs. destruct e as [c|c|c cs|]; simpl.
  - unfold idle_select. case_decide; [done|].
    destruct (gw (tracked s)) as [[|]|]; intros [= <-]; simpl; set_solver.
  - unfold idle_locked. repeat case_decide; intros [= <-]; simpl; set_solver.
  - unfold whole_callback. case_decide; [done|].
    destruct (connStateHandler c cs (tracked s)); intros [= <-]; done.
  - unfold close_shutdownCh. destruct (gw (tracked s)) as [[|]|]; intros [= <-]; done.
Qed.

Lemma conn_run_apart evs s s' :
  arms_apart s → conn_run evs s = Some s' → arms_apart s'.
Proof.
  unfold conn_run. revert s. induction evs as [|e evs IH]; intros s Hs; simpl.
  - by intros [= <-].
  - destruct (conn_step e s) as [s1|] eqn:Hstep; simpl; [|done].
    apply IH. by eapply conn_step_apart.
Qed.

(** Once the channel is closed it stays closed, no select takes the default
    arm any more, and the idle set can only grow by the connections whose
    callback is already on the default arm. *)
Lemma conn_step_shutdown e s s' :
  gw (tracked s) = Some true → conn_step e s = Some s' →
  gw (tracked s') = Some true ∧ adding s' ⊆ adding s ∧
  idleConns (tracked s') ∪ adding s' ⊆ idleConns (tracked s) ∪ adding s.
Proof.
  intros Hsh. destruct e as [c|c|c cs|]; simpl.
  - unfold idle_select. case_decide; [done|]. rewrite Hsh. by intros [= <-].
  - unfold idle_locked. repeat case_decide; intros [= <-]; simpl;
      (split; [done|]); set_solver.
  - unfold whole_callback. case_decide; [done|].
    destruct (connStateHandler c cs (tracked s)) as [t|] eqn:Hcb; intros [= <-].
    simpl. rewrite (connStateHandler_gw _ _ _ _ Hcb).
    pose proof (connStateHandler_no_add _ _ _ _ Hsh Hcb). split; [done|]. set_solver.
  - unfold close_shutdownCh. by rewrite Hsh.
Qed.

Lemma conn_run_shutdown evs s s' :
  gw (tracked s) = Some true → conn_run evs s = Some s' →
  gw (tracked s') = Some true ∧ adding s' ⊆ adding s ∧
  idleConns (tracked s') ∪ adding s' ⊆ idleConns (tracked s) ∪ adding s.
Proof.
  unfold conn_run. revert s. induction evs as [|e evs IH]; intros s Hsh; simpl.
  - by intros [= <-].
  - destruct (conn_step e s) as [s1|] eqn:Hstep; simpl; [|done]. intros Hrest.
    destruct (conn_step_shutdown _ _ _ Hsh Hstep) as (Hsh1 & Ha1 & Hi1).
    destruct (IH s1 Hsh1 Hrest) as (Hsh' & Ha' & Hi').
    split; [done|]. set_solver.
Qed.

(** C9, amended.  In every interleaving of the callbacks with the close of
    [gw.shutdownCh], started with no callback under way:
    - the select of a [StateIdle] callback takes the default arm when the
      channel is open and the [shutdownCh] arm when it is closed, and
      touches nothing;
    - the default arm adds the connection to the idle set and does not close
      it; the [shutdownCh] arm calls [Close] on the connection, which is not
      in the idle set afterwards;
    - once the channel is closed it stays closed, no callback takes the
      default arm any more, and the only connections that can still enter
      the idle set are those whose callback had taken the default arm
      before the close. *)
Theorem idle_after_shutdown (t : tracker) (evs1 evs2 : list conn_event)
    (s1 s2 : conns) :
  conn_run evs1 (Conns t ∅ ∅) = Some s1 →
  conn_run evs2 s1 = Some s2 →
  (∀ c s', conn_step (IdleSelect c) s2 = Some s' →
     tracked s' = tracked s2 ∧
     (gw (tracked s2) = Some false →
      adding s' = {[c]} ∪ adding s2 ∧ closing s' = closing s2) ∧
     (gw (tracked s2) = Some true →
      adding s' = adding s2 ∧ closing s' = {[c]} ∪ closing s2)) ∧
  (∀ c s', conn_step (IdleLocked c) s2 = Some s' →
     (c ∈ adding s2 →
      idleConns (tracked s') = {[c]} ∪ idleConns (tracked s2) ∧
      conn_closes (tracked s') = conn_closes (tracked s2)) ∧
     (c ∈ closing s2 →
      conn_closes (tracked s') = conn_closes (tracked s2) ++ [c] ∧
      (c ∉ idleConns (tracked s')) ∧
      idleConns (tracked s') = idleConns (tracked s2) ∖ {[c]})) ∧
  (gw (tracked s1) = Some true →
   gw (tracked s2) = Some true ∧
   adding s2 ⊆ adding s1 ∧
   idleConns (tracked s2) ⊆ idleConns (tracked s1) ∪ adding s1).
Proof.
  intros Hrun1 Hrun2.
  assert (Hapart : arms_apart s2).
  { eapply conn_run_apart; [|exact Hrun2].
    eapply conn_run_apart; [|exact Hrun1]. unfold arms_apart. simpl. set_solver. }
  split_and!.
  - intros c s'. simpl. unfold idle_select. case_decide; [done|].
    destruct (gw (tracked s2)) as [[|]|]; intros [= <-]; simpl; split_and!;
      try done; by intros [=].
  - intros c s'. simpl. unfold idle_locked. unfold arms_apart in Hapart.
    repeat case_decide; intros [= <-]; simpl; split; intros Hin;
      try (exfalso; set_solver); split_and?; try done; set_solver.
  - intros Hsh.
    destruct (conn_run_shutdown _ _ _ Hsh Hrun2) as (Hsh2 & Ha & Hi).
    split_and!; [done|done|set_solver].
Qed.

(** **** Counting connections *)

Global Instance ConnState_eq_dec : EqDecision ConnState.
Proof. solve_decision. Defined.

(** How many callbacks of a sequence carried a given state. *)
Definition fired (cs : ConnState) (cbs : list (nat * ConnState)) : Z :=
  Z.of_nat (length (filter (λ cb, cb.2 = cs) cbs)).

(** The connections a sequence reported closed, in order. *)
Definition closed_conns (cbs : list (nat * ConnState)) : list nat :=
  (filter (λ cb, cb.2 = StateClosed) cbs).*1.

Lemma wrap32_add a b : wrap32 (wrap32 a + b) = wrap32 (a + b).
Proof.
  unfold wrap32. f_equal.
  replace ((a + 2 ^ 31) `mod` 2 ^ 32 - 2 ^ 31 + b + 2 ^ 31)
    with ((a + 2 ^ 31) `mod` 2 ^ 32 + b) by lia.
  rewrite Zplus_mod_idemp_l. f_equal. lia.
Qed.

Lemma wrap32_in_range a : - 2 ^ 31 ≤ a < 2 ^ 31 → wrap32 a = a.
Proof. intros Ha. unfold wrap32. rewrite Z.mod_small; lia. Qed.

Lemma fired_cons cs c cs' cbs :
  fired cs ((c, cs') :: cbs) = (if decide (cs' = cs) then 1 else 0) + fired cs cbs.
Proof.
  unfold fired. rewrite filter_cons. simpl. case_decide; simpl; lia.
Qed.

Lemma callbacks_counts cbs s s' :
  callbacks cbs s = Some s' →
  idleConnsWg s' = idleConnsWg s + fired StateNew cbs - fired StateClosed cbs ∧
  wrap32 (activeConnN s') =
    wrap32 (activeConnN s + fired StateNew cbs - fired StateHijacked cbs
            - fired StateClosed cbs) ∧
  closedConnCh s' = closedConnCh s ++ (RemoteAddr <$> closed_conns cbs).
Proof.
  unfold callbacks. revert s. induction cbs as [|[c cs] cbs IH]; intros s; simpl.
  - intros [= <-]. unfold fired, closed_conns. simpl.
    rewrite app_nil_r. split_and!; [lia| f_equal; lia |done].
  - destruct (connStateHandler c cs s) as [s1|] eqn:Hstep; simpl; [|done].
    intros Hrest. destruct (IH s1 Hrest) as (Hwg & Hact & Hch).
    rewrite Hwg, Hact, Hch, !fired_cons. unfold closed_conns.
    rewrite filter_cons. simpl.
    destruct cs; simpl in Hstep; repeat case_decide; try done;
      try destruct (gw s) as [[|]|]; try done;
      injection Hstep as <-; simpl;
      rewrite <- ?(assoc_L (++)); simpl;
      (split_and!; [lia | | done]);
      try match goal with
          | |- wrap32 (wrap32 ?a + ?x - ?y - ?z) = _ =>
              replace (wrap32 a + x - y - z) with (wrap32 a + (x - y - z)) by lia;
              rewrite wrap32_add
          end;
      f_equal; lia.
Qed.

(** Over any completed sequence of callbacks, the wait-group counter has
    moved by the connections reported new less those reported closed (a
    hijacked connection keeps its unit); the active-connection counter, an
    int32, by the new ones less the hijacked and the closed ones; and the
    remote address of every closed connection has been put on
    [closedConnCh], in order. *)
Theorem callbacks_accounting (cbs : list (nat * ConnState)) (s s' : tracker) :
  callbacks cbs s = Some s' →
  - 2 ^ 31 ≤ activeConnN s < 2 ^ 31 →
  idleConnsWg s' = idleConnsWg s + fired StateNew cbs - fired StateClosed cbs ∧
  activeConnN s' =
    wrap32 (activeConnN s + fired StateNew cbs - fired StateHijacked cbs
            - fired StateClosed cbs) ∧
  closedConnCh s' = closedConnCh s ++ (RemoteAddr <$> closed_conns cbs).
Proof.
  intros Hrun Hrange.
  destruct (callbacks_counts cbs s s' Hrun) as (Hwg & Hact & Hch).
  split_and!; [done| |done].
  rewrite <- Hact. symmetry. apply wrap32_in_range.
  clear Hwg Hact Hch. revert s Hrun Hrange. unfold callbacks.
  induction cbs as [|[c cs] cbs IH]; intros s; simpl.
  - by intros [= <-].
  - destruct (connStateHandler c cs s) as [s1|] eqn:Hstep; simpl; [|done].
    intros Hrest Hrange. apply (IH s1 Hrest).
    assert (Hw : ∀ a, - 2 ^ 31 ≤ wrap32 a < 2 ^ 31).
    { intros a. unfold wrap32.
      pose proof (Z.mod_pos_bound (a + 2 ^ 31) (2 ^ 32)). lia. }
    destruct cs; simpl in Hstep; repeat case_decide; try done;
      try destruct (gw s) as [[|]|]; try done;
      injection Hstep as <-; simpl; done.
Qed.

(** **** Which connections are in the idle set *)

(** The state of the last callback for [c], those with [StateNew] apart. *)
Fixpoint last_touch (c : nat) (cbs : list (nat * ConnState)) : option ConnState :=
  match cbs with
  | [] => None
  | (c', cs) :: rest =>
      match last_touch c rest with
      | Some x => Some x
      | None => if decide (c' = c ∧ cs ≠ StateNew) then Some cs else None
      end
  end.

(** After any completed sequence of callbacks, a connection is in the idle
    set exactly when its last callback (other than [StateNew]) was
    [StateIdle] with [gw.shutdownCh] still open, or when it had no such
    callback and was in the set before. *)
Theorem idleConns_last_touch (cbs : list (nat * ConnState)) (s s' : tracker)
    (b : bool) (c : nat) :
  gw s = Some b → callbacks cbs s = Some s' →
  (c ∈ idleConns s' ↔
   match last_touch c cbs with
   | Some StateIdle => b = false
   | Some _ => False
   | None => c ∈ idleConns s
   end).
Proof.
  unfold callbacks. revert s. induction cbs as [|[c1 cs1] cbs IH]; intros s Hgw; simpl.
  - by intros [= <-].
  - destruct (connStateHandler c1 cs1 s) as [s1|] eqn:Hstep; simpl; [|done].
    intros Hrest.
    pose proof (connStateHandler_gw _ _ _ _ Hstep) as Hgw1. rewrite Hgw in Hgw1.
    rewrite (IH s1 Hgw1 Hrest).
    destruct (last_touch c cbs) as [x|]; [done|].
    destruct cs1; simpl in Hstep; repeat case_decide; try done;
      rewrite ?Hgw in Hstep; try destruct b; try done;
      injection Hstep as <-; simpl; set_solver.
Qed.

End ConnState.

Definition demo_addr (c : nat) : string := "10.0.0." +:+ pretty c.

Definition demo_tracker (shutdown : bool) : tracker :=
  Tracker (Some shutdown) {[ 1%nat; 2%nat ]} 3 3 [] [] 3 0.

(** A callback for connection 7 has taken the default arm and one for
    connection 8 is not yet under way when the channel is closed; afterwards
    7 is added all the same, and 8 and 1 are closed and not added. *)
Definition before_close : list conn_event := [IdleSelect 7; CloseShutdownCh].

Definition after_close : list conn_event :=
  [IdleLocked 7; IdleSelect 8; IdleLocked 8; Callback 1 StateIdle].

Definition demo_conns_closed : conns :=
  Conns (demo_tracker true) {[ 7%nat ]} ∅.

Definition demo_conns_after : conns :=
  Conns (Tracker (Some true) {[ 2%nat; 7%nat ]} 3 3 [] [8%nat; 1%nat] 3 0) ∅ ∅.

Lemma idle_after_shutdown_witness :
  (∀ c s', conn_step demo_addr false (IdleSelect c) demo_conns_after = Some s' →
     tracked s' = tracked demo_conns_after ∧
     (gw (tracked demo_conns_after) = Some false →
      adding s' = {[c]} ∪ adding demo_conns_after ∧
      closing s' = closing demo_conns_after) ∧
     (gw (tracked demo_conns_after) = Some true →
      adding s' = adding demo_conns_after ∧
      closing s' = {[c]} ∪ closing demo_conns_after)) ∧
  (∀ c s', conn_step demo_addr false (IdleLocked c) demo_conns_after = Some s' →
     (c ∈ adding demo_conns_after →
      idleConns (tracked s') = {[c]} ∪ idleConns (tracked demo_conns_after) ∧
      conn_closes (tracked s') = conn_closes (tracked demo_conns_after)) ∧
     (c ∈ closing demo_conns_after →
      conn_closes (tracked s') = conn_closes (tracked demo_conns_after) ++ [c] ∧
      (c ∉ idleConns (tracked s')) ∧
      idleConns (tracked s') = idleConns (tracked demo_conns_after) ∖ {[c]})) ∧
  (gw (tracked demo_conns_closed) = Some true →
   gw (tracked demo_conns_after) = Some true ∧
   adding demo_conns_after ⊆ adding demo_conns_closed ∧
   idleConns (tracked demo_conns_after)
     ⊆ idleConns (tracked demo_conns_closed) ∪ adding demo_conns_closed).
Proof.
  apply (idle_after_shutdown demo_addr false (demo_tracker false) before_close
           after_close demo_conns_closed demo_conns_after).
  - vm_compute. reflexivity.
  - vm_compute. reflexivity.
Defined.

(** C9 does not hold as stated: the callback for connection 7 takes the
    default arm of its select, the channel is closed, and the arm then adds
    7 to the idle set. *)
Lemma never_added_after_shutdown_fails :
  ¬ never_added_after_shutdown demo_addr false.
Proof.
  intros Hclaim.
  specialize (Hclaim (demo_tracker false) before_close [IdleLocked 7]
                demo_conns_closed
                (Conns (Tracker (Some true) {[ 1%nat; 2%nat; 7%nat ]} 3 3 [] [] 3 0)
                   ∅ ∅)).
  assert (Hin : 7%nat ∈ idleConns (demo_tracker true)).
  { apply Hclaim; [by vm_compute|done|by vm_compute|]. simpl. set_solver. }
  simpl in Hin. set_solver.
Qed.

Definition demo_callbacks : list (nat * ConnState) :=
  [(7%nat, StateNew); (7%nat, StateActive); (7%nat, StateIdle);
   (8%nat, StateNew); (8%nat, StateHijacked); (1%nat, StateClosed)].

Definition demo_tracker_after : tracker :=
  Tracker (Some false) {[ 2%nat; 7%nat ]} 4 3 ["10.0.0.1"] [] 3 1.

Lemma callbacks_accounting_witness :
  idleConnsWg demo_tracker_after =
    idleConnsWg (demo_tracker false) + fired StateNew demo_callbacks
    - fired StateClosed demo_callbacks ∧
  activeConnN demo_tracker_after =
    wrap32 (activeConnN (demo_tracker false) + fired StateNew demo_callbacks
            - fired StateHijacked demo_callbacks
            - fired StateClosed demo_callbacks) ∧
  closedConnCh demo_tracker_after =
    closedConnCh (demo_tracker false) ++ (demo_addr <$> closed_conns demo_callbacks).
Proof.
  apply (callbacks_accounting demo_addr false demo_callbacks (demo_tracker false)
           demo_tracker_after).
  - vm_compute. reflexivity.
  - simpl. lia.
Defined.

Lemma idleConns_last_touch_witness :
  7%nat ∈ idleConns demo_tracker_after ↔
  match last_touch 7 demo_callbacks with
  | Some StateIdle => false = false
  | Some _ => False
  | None => 7%nat ∈ idleConns (demo_tracker false)
  end.
Proof.
  apply (idleConns_last_touch demo_addr false demo_callbacks (demo_tracker false)
           demo_tracker_after false 7).
  - reflexivity.
  - vm_compute. reflexivity.
Defined.

End SubServer.

(** ** The delayed-job executor

    [JobExecutor.handleDueJobs]: what one handler does with one [JobItem]
    taken from the [dueJobs] channel.  The job table and the history table
    are the rows they hold; the broker and the hinted-handoff queue are the
    payloads they have accepted.  Whether MySQL, the broker or the
    hinted-handoff service fails on a given call is not decided by the
    handler: it is an input of the step. *)

Module Executor.

Record JobItem := MkJobItem {
  JobId : Z;
  Payload : string;
  Ctime : Z;
  DueTime : Z
}.

Global Instance JobItem_eq_dec : EqDecision JobItem.
Proof. solve_decision. Defined.

(** A row of the history table: the job's columns, [etime] and [actor_id]. *)
Record HistoryRow := MkHistoryRow {
  h_job_id : Z;
  h_payload : string;
  h_ctime : Z;
  h_due_time : Z;
  h_etime : Z;
  h_actor_id : string
}.

(** The statements and calls a handler issues, whatever their outcome. *)
Inductive issued :=
  | DeleteJob (job_id : Z)
  | SyncPub (cluster topic payload : string)
  | HHAppend (cluster topic payload : string)
  | Reinject (job_id : Z) (payload : string) (ctime due_time : Z)
  | InsertArchive (job_id : Z) (payload : string) (ctime due_time etime : Z)
      (actor_id : string).

Record world := World {
  due_table : list JobItem;
  history_table : list HistoryRow;
  broker : list string;
  hinted : list string;
  trail : list issued
}.

(** Which calls fail while one item is handled. *)
Record failures := Failures {
  delete_fails : bool;
  pub_fails : bool;
  hh_fails : bool;
  reinject_fails : bool;
  archive_fails : bool
}.

(** The executor's own fields. *)
Record JobExecutor := MkJobExecutor {
  parentId : string;
  cluster : string;
  topic : string
}.

(** [DELETE FROM <table> WHERE job_id=?]: the number of rows removed, or an
    error that leaves the table as it was. *)
Definition exec_delete (f : failures) (job_id : Z) (w : world)
  : Z * bool * world :=
  let w1 := World (due_table w) (history_table w) (broker w) (hinted w)
              (trail w ++ [DeleteJob job_id]) in
  if delete_fails f then (0, true, w1)
  else
    let kept := filter (λ j, JobId j ≠ job_id) (due_table w) in
    (Z.of_nat (length (due_table w)) - Z.of_nat (length kept), false,
     World kept (history_table w) (broker w) (hinted w) (trail w1)).

Definition exec_SyncPub (f : failures) (this : JobExecutor) (payload : string)
    (w : world) : bool * world :=
  let t := trail w ++ [SyncPub (cluster this) (topic this) payload] in
  if pub_fails f then
    (true, World (due_table w) (history_table w) (broker w) (hinted w) t)
  else
    (false,
     World (due_table w) (history_table w) (broker w ++ [payload]) (hinted w) t).

Definition exec_hh_Append (f : failures) (this : JobExecutor) (payload : string)
    (w : world) : bool * world :=
  let t := trail w ++ [HHAppend (cluster this) (topic this) payload] in
  if hh_fails f then
    (true, World (due_table w) (history_table w) (broker w) (hinted w) t)
  else
    (false,
     World (due_table w) (history_table w) (broker w) (hinted w ++ [payload]) t).

(** [INSERT INTO <table>(job_id, payload, ctime, due_time) VALUES(?,?,?,?)] *)
Definition exec_reinject (f : failures) (job_id : Z) (payload : string)
    (ctime due_time : Z) (w : world) : bool * world :=
  let t := trail w ++ [Reinject job_id payload ctime due_time] in
  if reinject_fails f then
    (true, World (due_table w) (history_table w) (broker w) (hinted w) t)
  else
    (false,
     World (due_table w ++ [MkJobItem job_id payload ctime due_time])
       (history_table w) (broker w) (hinted w) t).

(** [INSERT INTO <history>(job_id,payload,ctime,due_time,etime,actor_id)
    VALUES(?,?,?,?,?,?)] *)
Definition exec_archive (f : failures) (job_id : Z) (payload : string)
    (ctime due_time etime : Z) (actor_id : string) (w : world) : bool * world :=
  let t := trail w ++
             [InsertArchive job_id payload ctime due_time etime actor_id] in
  if archive_fails f then
    (true, World (due_table w) (history_table w) (broker w) (hinted w) t)
  else
    (false,
     World (due_table w)
       (history_table w ++
          [MkHistoryRow job_id payload ctime due_time etime actor_id])
       (broker w) (hinted w) t).

(** The [case item := <-this.dueJobs] arm of [handleDueJobs]; [now] is
    [time.Now().Unix()]. *)
Definition handleDueJob (this : JobExecutor) (now : Z) (f : failures)
    (item : JobItem) (w : world) : world :=
  let '(affectedRows, err, w1) := exec_delete f (JobId item) w in
  if err then w1
  else if decide (affectedRows = 0) then
    (* client Cancel job wins, or the job was fetched twice *)
    w1
  else
    let '(err, w2) := exec_SyncPub f this (Payload item) w1 in
    let '(err, w3) :=
      if err then exec_hh_Append f this (Payload item) w2 else (err, w2) in
    if err then
      (* pub fails and hinted handoff also fails: reinject job back to mysql *)
      snd (exec_reinject f (JobId item) (Payload item) (Ctime item)
             (DueTime item) w3)
    else
      (* mv job to archive table *)
      snd (exec_archive f (JobId item) (Payload item) (Ctime item)
             (DueTime item) now (parentId this) w3).

(** A job is accounted for when the history table or the job table has a row
    with its id. *)
Definition accounted (job_id : Z) (w : world) : Prop :=
  (∃ r, r ∈ history_table w ∧ h_job_id r = job_id) ∨
  (∃ j, j ∈ due_table w ∧ JobId j = job_id).

(** The delete went through and removed at least one row. *)
Definition deleted (f : failures) (item : JobItem) (w : world) : Prop :=
  ∃ rows w1, exec_delete f (JobId item) w = (rows, false, w1) ∧ 0 < rows.

(** The at-least-once property as the specification words it: whatever
    fails afterwards, a job whose row was deleted is accounted for. *)
Definition never_lost : Prop :=
  ∀ this now f item w,
    item ∈ due_table w → DueTime item ≤ now → deleted f item w →
    accounted (JobId item) (handleDueJob this now f item w).

Definition demo_executor : JobExecutor := MkJobExecutor "ctl-1" "c1" "t1".
Definition job7 : JobItem := MkJobItem 7 "payload" 100 200.
Definition demo_world : world := World [job7] [] [] [] [].

Lemma filter_length_eq {A} (P : A → Prop) `{∀ x, Decision (P x)} (l : list A) :
  length (filter P l) = length l → filter P l = l.
Proof.
  induction l as [|a l IH]; [done|]. rewrite filter_cons. case_decide; simpl.
  - intros [= Hl]. by rewrite IH.
  - intros Hl. pose proof (length_filter P l). lia.
Qed.

Lemma exec_delete_inv f job_id w rows w1 :
  exec_delete f job_id w = (rows, false, w1) →
  delete_fails f = false ∧
  rows = Z.of_nat (length (due_table w)) -
         Z.of_nat (length (filter (λ j, JobId j ≠ job_id) (due_table w))) ∧
  w1 = World (filter (λ j, JobId j ≠ job_id) (due_table w)) (history_table w)
         (broker w) (hinted w) (trail w ++ [DeleteJob job_id]).
Proof.
  unfold exec_delete. destruct (delete_fails f); [done|].
  intros [= <- <-]. done.
Qed.

(** C5. When the DELETE of an item's [job_id] reports no affected row, the
    handler stops there: the DELETE is all it has issued, and the broker, the
    hinted-handoff queue and both tables are as they were. *)
Theorem handleDueJob_lost_race this now f item w w1 :
  exec_delete f (JobId item) w = (0, false, w1) →
  handleDueJob this now f item w = w1 ∧
  trail w1 = trail w ++ [DeleteJob (JobId item)] ∧
  broker w1 = broker w ∧
  hinted w1 = hinted w ∧
  history_table w1 = history_table w ∧
  due_table w1 = due_table w.
Proof.
  intros Hdel. unfold handleDueJob. rewrite Hdel. simpl.
  split; [done|].
  apply exec_delete_inv in Hdel as (_ & Hrows & ->). simpl.
  split_and!; try done.
  apply filter_length_eq. lia.
Qed.

Lemma handleDueJob_lost_race_witness :
  let f := Failures false false false false false in
  let w := World [job7] [] [] [] [] in
  let item := MkJobItem 8 "other" 1 2 in
  let w1 := World [job7] [] [] [] [DeleteJob 8] in
  handleDueJob demo_executor 300 f item w = w1 ∧
  trail w1 = trail w ++ [DeleteJob (JobId item)] ∧
  broker w1 = broker w ∧
  hinted w1 = hinted w ∧
  history_table w1 = history_table w ∧
  due_table w1 = due_table w.
Proof.
  intros f w item w1.
  apply (handleDueJob_lost_race demo_executor 300 f item w w1).
  reflexivity.
Defined.

(** C6. When the row was deleted and both the broker publish and the
    hinted-handoff append fail, the handler issues, after them, one INSERT
    into the job table carrying the item's own [job_id], payload, [ctime]
    and [due_time], and nothing else: no history INSERT is issued and the
    history table is as it was.  Where MySQL accepts that INSERT, the job
    table holds the item again. *)
Theorem handleDueJob_reinject this now f item w :
  deleted f item w → pub_fails f = true → hh_fails f = true →
  let w' := handleDueJob this now f item w in
  trail w' =
    trail w ++
      [DeleteJob (JobId item);
       SyncPub (cluster this) (topic this) (Payload item);
       HHAppend (cluster this) (topic this) (Payload item);
       Reinject (JobId item) (Payload item) (Ctime item) (DueTime item)] ∧
  history_table w' = history_table w ∧
  broker w' = broker w ∧
  hinted w' = hinted w ∧
  (reinject_fails f = false →
   due_table w' =
     filter (λ j, JobId j ≠ JobId item) (due_table w) ++ [item]).
Proof.
  intros (rows & w1 & Hdel & Hrows) Hpub Hhh. simpl.
  unfold handleDueJob. rewrite Hdel. simpl.
  rewrite decide_False by lia.
  apply exec_delete_inv in Hdel as (_ & _ & ->).
  unfold exec_SyncPub, exec_hh_Append, exec_reinject. rewrite Hpub. simpl.
  rewrite Hhh. simpl.
  destruct (reinject_fails f); simpl;
    rewrite <- !(assoc_L (++)); simpl; split_and!; try done.
  intros _. by destruct item.
Qed.

Lemma handleDueJob_reinject_witness :
  let f := Failures false true true false false in
  let w' := handleDueJob demo_executor 300 f job7 demo_world in
  trail w' =
    trail demo_world ++
      [DeleteJob 7; SyncPub "c1" "t1" "payload"; HHAppend "c1" "t1" "payload";
       Reinject 7 "payload" 100 200] ∧
  history_table w' = history_table demo_world ∧
  broker w' = broker demo_world ∧
  hinted w' = hinted demo_world ∧
  (reinject_fails f = false →
   due_table w' =
     filter (λ j, JobId j ≠ JobId job7) (due_table demo_world) ++ [job7]).
Proof.
  intros f.
  apply (handleDueJob_reinject demo_executor 300 f job7 demo_world).
  - exists 1, (World [] [] [] [] [DeleteJob 7]). split; [reflexivity | lia].
  - reflexivity.
  - reflexivity.
Defined.

(** C2 does not hold as stated: job 7 is due, its row is deleted, the broker
    takes the payload, and the history INSERT fails; the handler logs the
    error and goes on, and job 7 is in neither table. *)
Lemma never_lost_fails : ¬ never_lost.
Proof.
  intros Hclaim.
  destruct (Hclaim demo_executor 300 (Failures false false false false true)
              job7 demo_world) as [(r & Hr & _)|(j & Hj & _)].
  - by apply list_elem_of_singleton.
  - simpl. lia.
  - exists 1, (World [] [] [] [] [DeleteJob 7]). split; [reflexivity | lia].
  - vm_compute in Hr. by apply elem_of_nil in Hr.
  - vm_compute in Hj. by apply elem_of_nil in Hj.
Qed.

(** C2, amended.  A job whose row was deleted is accounted for whenever the
    INSERT that ends the handling succeeds: the history INSERT after the
    broker or the hinted-handoff queue took the payload, the reinject after
    both refused it. *)
Theorem handleDueJob_accounted this now f item w :
  deleted f item w →
  (if pub_fails f && hh_fails f then reinject_fails f = false
   else archive_fails f = false) →
  accounted (JobId item) (handleDueJob this now f item w).
Proof.
  intros (rows & w1 & Hdel & Hrows) Hins.
  unfold handleDueJob. rewrite Hdel. simpl.
  rewrite decide_False by lia.
  apply exec_delete_inv in Hdel as (_ & _ & ->).
  unfold exec_SyncPub, exec_hh_Append, exec_reinject, exec_archive, accounted.
  destruct (pub_fails f); simpl; [destruct (hh_fails f); simpl|]; simpl in Hins;
    rewrite Hins; simpl.
  - right. eexists. split; [apply elem_of_app; right; by left|done].
  - left. eexists. split; [apply elem_of_app; right; by left|done].
  - left. eexists. split; [apply elem_of_app; right; by left|done].
Qed.

Lemma handleDueJob_accounted_witness :
  accounted 7
    (handleDueJob demo_executor 300 (Failures false true false false false)
       job7 demo_world).
Proof.
  apply (handleDueJob_accounted demo_executor 300
           (Failures false true false false false) job7 demo_world).
  - exists 1, (World [] [] [] [] [DeleteJob 7]). split; [reflexivity | lia].
  - reflexivity.
Defined.

(** The other way to lose a job: both deliveries fail and so does the
    reinject, whose result the handler does not look at. *)
Example reinject_failure_loses_job :
  let w' := handleDueJob demo_executor 300 (Failures false true true true false)
              job7 demo_world in
  due_table w' = [] ∧ history_table w' = [] ∧ broker w' = [] ∧ hinted w' = [].
Proof. by vm_compute. Qed.

(** **** What one handling can and cannot do *)

Ltac handle_cases f :=
  unfold handleDueJob, exec_delete, exec_SyncPub, exec_hh_Append,
    exec_reinject, exec_archive;
  destruct (delete_fails f) eqn:?, (pub_fails f) eqn:?, (hh_fails f) eqn:?,
    (reinject_fails f) eqn:?, (archive_fails f) eqn:?;
  simpl; try case_decide; simpl; rewrite <- ?(assoc_L (++)); simpl.

(** The job table has a row with this id. *)
Definition has_row (job_id : Z) (w : world) : Prop :=
  ∃ j, j ∈ due_table w ∧ JobId j = job_id.

Lemma filter_shorter {A} (P : A → Prop) `{∀ x, Decision (P x)} (l : list A) :
  length (filter P l) ≠ length l → ∃ x, x ∈ l ∧ ¬ P x.
Proof.
  induction l as [|a l IH]; [done|]. rewrite filter_cons. case_decide; simpl.
  - intros Hl. destruct IH as (x & Hx & HP); [lia|].
    exists x. split; [by right|done].
  - intros _. exists a. split; [by left|done].
Qed.

Lemma rows_has_row (job_id : Z) (w : world) :
  Z.of_nat (length (due_table w)) -
    Z.of_nat (length (filter (λ j, JobId j ≠ job_id) (due_table w))) ≠ 0 →
  has_row job_id w.
Proof.
  intros Hrows.
  destruct (filter_shorter (λ j, JobId j ≠ job_id) (due_table w)) as (j & Hj & Hid);
    [lia|].
  exists j. split; [done|]. by destruct (decide (JobId j = job_id)).
Qed.

Lemma filter_filter_same {A} (P : A → Prop) `{∀ x, Decision (P x)} (l : list A) :
  filter P (filter P l) = filter P l.
Proof.
  induction l as [|a l IH]; [done|]. rewrite filter_cons.
  case_decide; [|done]. rewrite filter_cons, decide_True by done. by rewrite IH.
Qed.

(** The statements one handling issues: the DELETE first, always; after it
    nothing, or the publish and the history INSERT, or the publish, the
    hinted-handoff append and ONE of the two INSERTs.  The handler never
    issues both INSERTs, and never appends to the hinted-handoff queue
    without having tried the broker. *)
Theorem handleDueJob_statements (this : JobExecutor) (now : Z) (f : failures)
    (item : JobItem) (w : world) :
  let pub := SyncPub (cluster this) (topic this) (Payload item) in
  let hh := HHAppend (cluster this) (topic this) (Payload item) in
  let archive := InsertArchive (JobId item) (Payload item) (Ctime item)
                   (DueTime item) now (parentId this) in
  let reinject := Reinject (JobId item) (Payload item) (Ctime item)
                    (DueTime item) in
  ∃ rest, trail (handleDueJob this now f item w) =
            trail w ++ DeleteJob (JobId item) :: rest ∧
          (rest = [] ∨ rest = [pub; archive] ∨ rest = [pub; hh; archive] ∨
           rest = [pub; hh; reinject]).
Proof.
  handle_cases f; eexists; (split; [reflexivity|]); tauto.
Qed.

(** A history row is written only for a delivered job: when the history
    table has changed, it has gained exactly the item's row, stamped with
    [now] and the executor's [parentId]; the job table had a row with the
    item's id and has lost every such row; and the payload went either to
    the broker or to the hinted-handoff queue, not to both. *)
Theorem handleDueJob_archive (this : JobExecutor) (now : Z) (f : failures)
    (item : JobItem) (w : world) :
  let w' := handleDueJob this now f item w in
  history_table w' = history_table w ∨
  (history_table w' =
     history_table w ++
       [MkHistoryRow (JobId item) (Payload item) (Ctime item) (DueTime item)
          now (parentId this)] ∧
   has_row (JobId item) w ∧
   due_table w' = filter (λ j, JobId j ≠ JobId item) (due_table w) ∧
   (broker w' = broker w ++ [Payload item] ∧ hinted w' = hinted w ∨
    broker w' = broker w ∧ hinted w' = hinted w ++ [Payload item])).
Proof.
  handle_cases f; try (by left); right;
    (split_and!; [done | by apply rows_has_row | done | tauto]).
Qed.

(** A payload reaches the broker or the hinted-handoff queue only when the
    handler's own DELETE went through and removed a row: a handler whose
    DELETE failed, or found the row already gone, delivers nothing. *)
Theorem handleDueJob_delivery_needs_row (this : JobExecutor) (now : Z)
    (f : failures) (item : JobItem) (w : world) :
  let w' := handleDueJob this now f item w in
  broker w' ≠ broker w ∨ hinted w' ≠ hinted w →
  delete_fails f = false ∧ has_row (JobId item) w.
Proof.
  handle_cases f; intros [?|?]; try done;
    (split; [done | by apply rows_has_row]).
Qed.

(** Rows of other jobs are left alone, in the job table and in the history
    table. *)
Theorem handleDueJob_frame (this : JobExecutor) (now : Z) (f : failures)
    (item : JobItem) (w : world) :
  let w' := handleDueJob this now f item w in
  filter (λ j, JobId j ≠ JobId item) (due_table w') =
    filter (λ j, JobId j ≠ JobId item) (due_table w) ∧
  filter (λ r, h_job_id r ≠ JobId item) (history_table w') =
    filter (λ r, h_job_id r ≠ JobId item) (history_table w).
Proof.
  handle_cases f;
    rewrite ?filter_app, ?filter_filter_same, ?filter_cons, ?filter_nil; simpl;
    rewrite ?decide_False by (intros Hne; by apply Hne);
    by rewrite ?app_nil_r.
Qed.

(** The same item handled a second time (the job was fetched twice in a
    tick) delivers nothing more: unless the first handling put the job back
    with a reinject, the second one issues its DELETE and changes nothing
    else, whatever fails or succeeds for it. *)
Theorem handleDueJob_twice (this : JobExecutor) (now now' : Z) (f f' : failures)
    (item : JobItem) (w : world) :
  delete_fails f = false →
  pub_fails f && hh_fails f && negb (reinject_fails f) = false →
  let w1 := handleDueJob this now f item w in
  let w2 := handleDueJob this now' f' item w1 in
  trail w2 = trail w1 ++ [DeleteJob (JobId item)] ∧
  broker w2 = broker w1 ∧ hinted w2 = hinted w1 ∧
  history_table w2 = history_table w1 ∧ due_table w2 = due_table w1.
Proof.
  intros Hdel Hre. simpl.
  assert (Hgone : filter (λ j, JobId j ≠ JobId item)
                    (due_table (handleDueJob this now f item w)) =
                  due_table (handleDueJob this now f item w)).
  { revert Hdel Hre. handle_cases f; intros; try done;
      apply filter_filter_same. }
  generalize dependent (handleDueJob this now f item w). intros w1 Hgone.
  unfold handleDueJob, exec_delete. rewrite Hgone.
  destruct (delete_fails f'); simpl; [done|].
  rewrite decide_True by lia. done.
Qed.

Definition no_failures : failures := Failures false false false false false.

Lemma handleDueJob_delivery_needs_row_witness :
  delete_fails no_failures = false ∧ has_row (JobId job7) demo_world.
Proof.
  apply (handleDueJob_delivery_needs_row demo_executor 300 no_failures job7
           demo_world).
  left. vm_compute. discriminate.
Defined.

Lemma handleDueJob_twice_witness :
  let w1 := handleDueJob demo_executor 300 no_failures job7 demo_world in
  let w2 := handleDueJob demo_executor 301 no_failures job7 w1 in
  trail w2 = trail w1 ++ [DeleteJob (JobId job7)] ∧
  broker w2 = broker w1 ∧ hinted w2 = hinted w1 ∧
  history_table w2 = history_table w1 ∧ due_table w2 = due_table w1.
Proof.
  apply (handleDueJob_twice demo_executor 300 301 no_failures no_failures job7
           demo_world).
  - reflexivity.
  - reflexivity.
Defined.

End Executor.

(** ** The disk hinted-handoff service

    [Service] of package disk.  The on-disk queue ([*queue]), the file
    system and the timer wheel live outside this file: they are parameters,
    acting on an abstract [World].  The service is threaded through a state
    monad; [None] is a panic.  [rwmux] does not show: the operations are
    taken one at a time. *)

Module Disk.

Inductive error := ErrNotOpen | Err (msg : string).

Global Instance error_eq_dec : EqDecision error.
Proof. solve_decision. Defined.

(** [clusterTopic{cluster, topic}] *)
Abbreviation clusterTopic := (string * string)%type.

Record block := Block {
  magic : Byte.byte * Byte.byte;
  key : list Byte.byte;
  value : list Byte.byte
}.

Definition currentMagic : Byte.byte * Byte.byte := (Byte.x00, Byte.x00).

Record Config := MkConfig {
  Dirs : list string;
  PurgeInterval : Z;
  MaxAge : Z
}.

(** The calls that leave the service, and the lookups in its registry. *)
Inductive call :=
  | CNewTimeWheel
  | CTimerStop
  | CMkdirIfNotExist (dir : string)
  | CReadDir (dir : string)
  | CMkdirAll (dir : string)
  | CLookup (ct : clusterTopic)
  | CNewQueue (ct : clusterTopic) (dir : string)
  | COpen (ct : clusterTopic)
  | CStart (ct : clusterTopic)
  | CClose (ct : clusterTopic)
  | CAppend (ct : clusterTopic) (b : block)
  | CFlushInflights (ct : clusterTopic).

(** [log.Error(format, args...)] *)
Record logline := LogError { format : string; args : list string }.

Section Service.

Variable queue : Type.
Variable World : Type.

Variable NewTimeWheel : World → World.
Variable timer_Stop : World → World.
Variable mkdirIfNotExist : string → World → World * option error.
(** [ioutil.ReadDir]: the entries, each a name and whether it is a directory. *)
Variable ReadDir : string → World → World * (list (string * bool) + error).
Variable MkdirAll : string → World → World * option error.
Variable IsExist : error → bool.
Variable ClusterDir : clusterTopic → string → string.
Variable TopicDir : clusterTopic → string → string.
Variable newQueue : clusterTopic → string → Z → Z → Z → queue.
Variable q_Open : queue → World → queue * World * option error.
Variable q_Start : queue → World → queue * World.
Variable q_Close : queue → World → queue * World.
Variable q_Append : block → queue → World → queue * World * option error.
(** [q.FlushInflights(failCh, &wg)]: the errors it sends on [failCh]. *)
Variable q_FlushInflights : queue → World → queue * World * list error.
Variable q_Inflights : queue → Z.
Variable q_EmptyInflight : queue → bool.
(** [err.Error()], as the log prints it. *)
Variable show_error : error → string.
(** The order in which [range this.queues] visits the registry. *)
Variable range_queues : gmap clusterTopic queue → list (clusterTopic * queue).

Record Service := MkService {
  cfg : Config;
  closed : bool;
  queues : gmap clusterTopic queue
}.

Record state := State {
  this : Service;
  world : World;
  trail : list call;
  logged : list logline
}.

Definition M (A : Type) : Type := state → option (A * state).

Definition ret {A} (a : A) : M A := λ s, Some (a, s).

Definition bind {A B} (m : M A) (k : A → M B) : M B :=
  λ s, match m s with
       | Some (a, s') => k a s'
       | None => None
       end.

Notation "'let*' x ':=' m 'in' k" := (bind m (λ x, k))
  (at level 10, x name, m at level 100, k at level 200).
Notation "m ';;' k" := (bind m (λ _, k))
  (at level 100, k at level 200, right associativity).

Definition panic {A} : M A := λ _, None.

(** A call on the world, noted on the trail. *)
Definition extern {A} (c : call) (f : World → World * A) : M A :=
  λ s, let '(w, a) := f (world s) in
       Some (a, State (this s) w (trail s ++ [c]) (logged s)).

Definition log_Error (fmt : string) (a : list string) : M unit :=
  λ s, Some (tt, State (this s) (world s) (trail s) (logged s ++ [LogError fmt a])).

Definition get_closed : M bool := λ s, Some (closed (this s), s).
Definition get_cfg : M Config := λ s, Some (cfg (this s), s).

Definition set_closed (b : bool) : M unit :=
  λ s, Some (tt, State (MkService (cfg (this s)) b (queues (this s)))
                   (world s) (trail s) (logged s)).

Definition set_queues (qs : gmap clusterTopic queue) : M unit :=
  λ s, Some (tt, State (MkService (cfg (this s)) (closed (this s)) qs)
                   (world s) (trail s) (logged s)).

(** [q, present := this.queues[ct]] *)
Definition lookup_queue (ct : clusterTopic) : M (option queue) :=
  λ s, Some (queues (this s) !! ct,
             State (this s) (world s) (trail s ++ [CLookup ct]) (logged s)).

(** [this.queues[ct] = q] *)
Definition store_queue (ct : clusterTopic) (q : queue) : M unit :=
  λ s, Some (tt, State (MkService (cfg (this s)) (closed (this s))
                         (<[ct := q]> (queues (this s))))
                   (world s) (trail s) (logged s)).

(** A method call on [this.queues[ct]]: the queue is changed in place; on a
    missing entry the receiver is nil. *)
Definition on_queue {A} (c : call) (ct : clusterTopic)
    (f : queue → World → queue * World * A) : M A :=
  λ s, match queues (this s) !! ct with
       | Some q =>
           let '(q', w, a) := f q (world s) in
           Some (a, State (MkService (cfg (this s)) (closed (this s))
                             (<[ct := q']> (queues (this s))))
                      w (trail s ++ [c]) (logged s))
       | None => None
       end.

(** A loop whose body may return an error, which ends the loop. *)
Fixpoint for_err {A} (body : A → M (option error)) (l : list A)
  : M (option error) :=
  match l with
  | [] => ret None
  | a :: l' =>
      let* err := body a in
      match err with
      | Some e => ret (Some e)
      | None => for_err body l'
      end
  end.

Fixpoint for_each {A} (body : A → M unit) (l : list A) : M unit :=
  match l with
  | [] => ret tt
  | a :: l' => body a ;; for_each body l'
  end.

Definition Name : string := "disk".

(** [return this.cfg.Dirs[0] // TODO] *)
Definition nextDir : M string :=
  let* c := get_cfg in
  match Dirs c with
  | d :: _ => ret d
  | [] => panic
  end.

Definition createAndOpenQueue (ct : clusterTopic) (start : bool)
  : M (option error) :=
  let* dir := nextDir in
  let* err := extern (CMkdirAll (ClusterDir ct dir)) (MkdirAll (ClusterDir ct dir)) in
  let open_it : M (option error) :=
    let* c := get_cfg in
    extern (CNewQueue ct (TopicDir ct dir)) (λ w, (w, tt)) ;;
    store_queue ct (newQueue ct (TopicDir ct dir) (-1) (PurgeInterval c) (MaxAge c)) ;;
    let* err := on_queue (COpen ct) ct q_Open in
    match err with
    | Some e => ret (Some e)
    | None =>
        if start then
          on_queue (CStart ct) ct (λ q w, let '(q', w') := q_Start q w in (q', w', tt)) ;;
          ret None
        else ret None
    end in
  match err with
  | Some e => if negb (IsExist e) then ret (Some e) else open_it
  | None => open_it
  end.

(** [filepath.Join(dir, name)] for a directory and an entry read from it. *)
Definition Join (dir name : string) : string := dir +:+ "/" +:+ name.

Definition loadQueues (dir : string) (startQueues : bool) : M (option error) :=
  let* clusters := extern (CReadDir dir) (ReadDir dir) in
  match clusters with
  | inr err => ret (Some err)
  | inl clusters =>
      (* load queues from disk *)
      for_err (λ cluster : string * bool,
        if negb (snd cluster) then ret None
        else
          let* topics :=
            extern (CReadDir (Join dir (fst cluster)))
              (ReadDir (Join dir (fst cluster))) in
          match topics with
          | inr err => ret (Some err)
          | inl topics =>
              for_err (λ topic : string * bool,
                if negb (snd topic) then ret None
                else createAndOpenQueue (fst cluster, fst topic) startQueues)
              topics
          end)
      clusters
  end.

(** [New(cfg)]: it also replaces the package's timer wheel. *)
Definition New (c : Config) (w : World) : state :=
  State (MkService c true ∅) (NewTimeWheel w) [CNewTimeWheel] [].

Definition Start : M (option error) :=
  let* c := get_cfg in
  let* err :=
    for_err (λ dir,
      let* err := extern (CMkdirIfNotExist dir) (mkdirIfNotExist dir) in
      match err with
      | Some e => ret (Some e)
      | None => loadQueues dir true
      end)
    (Dirs c) in
  match err with
  | Some e => ret (Some e)
  | None => set_closed false ;; ret None
  end.

Definition Stop : M unit :=
  let* is_closed := get_closed in
  if is_closed then ret tt
  else
    let* qs := (λ s, Some (range_queues (queues (this s)), s)) in
    for_each (λ '(ct, _),
      on_queue (CClose ct) ct (λ q w, let '(q', w') := q_Close q w in (q', w', tt)))
      qs ;;
    set_queues ∅ ;;
    extern CTimerStop (λ w, (timer_Stop w, tt)) ;;
    set_closed true.

Definition Inflights : M Z :=
  λ s, Some (foldl (λ n '(_, q), wrap64 (n + q_Inflights q)) 0
               (range_queues (queues (this s))), s).

Definition Append (cluster topic : string) (key value : list Byte.byte)
  : M (option error) :=
  let* is_closed := get_closed in
  if is_closed then ret (Some ErrNotOpen)
  else
    let b := Block currentMagic key value in
    let ct := (cluster, topic) in
    let* q := lookup_queue ct in
    match q with
    | Some _ => on_queue (CAppend ct b) ct (q_Append b)
    | None =>
        (* double lock check *)
        let* q := lookup_queue ct in
        match q with
        | Some _ => on_queue (CAppend ct b) ct (q_Append b)
        | None =>
            let* err := createAndOpenQueue ct true in
            match err with
            | Some e => ret (Some e)
            | None => on_queue (CAppend ct b) ct (q_Append b)
            end
        end
    end.

Definition Empty (cluster topic : string) : M bool :=
  let* q := lookup_queue (cluster, topic) in
  match q with
  | None => ret true   (* should never happen *)
  | Some q => ret (q_EmptyInflight q)
  end.

(** What [FlushInflights] does past its guard: load the queues of every
    directory without starting them, then flush each queue and log what it
    reports.  The queues are flushed by goroutines of their own; here they
    take turns. *)
Definition flush_inflights : M unit :=
  let* c := get_cfg in
  let* err :=
    for_err (λ dir,
      let* err := loadQueues dir false in
      match err with
      | Some e =>
          log_Error "hh[%s] flush inflights %s: %s" [Name; dir; show_error e] ;;
          ret (Some e)
      | None => ret None
      end)
    (Dirs c) in
  match err with
  | Some _ => ret tt
  | None =>
      let* qs := (λ s, Some (range_queues (queues (this s)), s)) in
      for_each (λ '(ct, _),
        let* errs := on_queue (CFlushInflights ct) ct q_FlushInflights in
        for_each (λ e,
          log_Error "hh[%s] flush inflights: %s" [Name; show_error e]) errs)
        qs
  end.

Definition FlushInflights : M unit :=
  let* is_closed := get_closed in
  if negb is_closed then
    (* will race with queue housekeeping *)
    log_Error "hh[%s] run flush inflights with service closed!" [Name]
  else flush_inflights.

(** The operations of the service, and a session of them. *)
Inductive op :=
  | OpStart
  | OpStop
  | OpInflights
  | OpAppend (cluster topic : string) (key value : list Byte.byte)
  | OpEmpty (cluster topic : string)
  | OpFlushInflights.

Inductive result :=
  | RError (err : option error)
  | RUnit
  | RInt (n : Z)
  | RBool (b : bool).

Definition exec (o : op) : M result :=
  match o with
  | OpStart => let* err := Start in ret (RError err)
  | OpStop => Stop ;; ret RUnit
  | OpInflights => let* n := Inflights in ret (RInt n)
  | OpAppend c t k v => let* err := Append c t k v in ret (RError err)
  | OpEmpty c t => let* b := Empty c t in ret (RBool b)
  | OpFlushInflights => FlushInflights ;; ret RUnit
  end.

Fixpoint session (os : list op) : M (list (op * result)) :=
  match os with
  | [] => ret []
  | o :: os' =>
      let* r := exec o in
      let* rs := session os' in
      ret ((o, r) :: rs)
  end.

(** A [Start] that returned nil. *)
Definition started (h : op * result) : Prop :=
  h = (OpStart, RError None).

(** **** What leaves [closed] alone *)

Definition keeps_closed {A} (m : M A) : Prop :=
  ∀ s a s', m s = Some (a, s') → closed (this s') = closed (this s).

Lemma keeps_ret {A} (a : A) : keeps_closed (ret a).
Proof. by intros s a' s' [= _ <-]. Qed.

Lemma keeps_panic {A} : keeps_closed (@panic A).
Proof. by intros s a s'. Qed.

Lemma keeps_bind {A B} (m : M A) (k : A → M B) :
  keeps_closed m → (∀ a, keeps_closed (k a)) → keeps_closed (bind m k).
Proof.
  intros Hm Hk s b s'. unfold bind.
  destruct (m s) as [[a s1]|] eqn:Hms; [|done].
  intros Hks. rewrite (Hk a _ _ _ Hks). by eapply Hm.
Qed.

Lemma keeps_extern {A} c (f : World → World * A) : keeps_closed (extern c f).
Proof. intros s a s'. unfold extern. destruct (f (world s)). by intros [= _ <-]. Qed.

Lemma keeps_log_Error fmt a : keeps_closed (log_Error fmt a).
Proof. by intros s u s' [= _ <-]. Qed.

Lemma keeps_get_closed : keeps_closed get_closed.
Proof. by intros s a s' [= _ <-]. Qed.

Lemma keeps_get_cfg : keeps_closed get_cfg.
Proof. by intros s a s' [= _ <-]. Qed.

Lemma keeps_set_queues qs : keeps_closed (set_queues qs).
Proof. by intros s a s' [= _ <-]. Qed.

Lemma keeps_lookup_queue ct : keeps_closed (lookup_queue ct).
Proof. by intros s a s' [= _ <-]. Qed.

Lemma keeps_store_queue ct q : keeps_closed (store_queue ct q).
Proof. by intros s a s' [= _ <-]. Qed.

Lemma keeps_on_queue {A} c ct (f : queue → World → queue * World * A) :
  keeps_closed (on_queue c ct f).
Proof.
  intros s a s'. unfold on_queue. destruct (queues (this s) !! ct) as [q|]; [|done].
  destruct (f q (world s)) as [[q' w] a']. by intros [= _ <-].
Qed.

Lemma keeps_for_err {A} (body : A → M (option error)) l :
  (∀ a, keeps_closed (body a)) → keeps_closed (for_err body l).
Proof.
  intros Hbody. induction l as [|a l IH]; simpl; [apply keeps_ret|].
  apply keeps_bind; [done|]. intros [e|]; [apply keeps_ret | done].
Qed.

Lemma keeps_for_each {A} (body : A → M unit) l :
  (∀ a, keeps_closed (body a)) → keeps_closed (for_each body l).
Proof.
  intros Hbody. induction l as [|a l IH]; simpl; [apply keeps_ret|].
  by apply keeps_bind.
Qed.

(** Breaks a computation down to the steps above, after trying [known]. *)
Ltac keeps_with known :=
  repeat first
    [ known
    | apply keeps_ret | apply keeps_panic | apply keeps_extern
    | apply keeps_log_Error | apply keeps_get_closed | apply keeps_get_cfg
    | apply keeps_set_queues | apply keeps_lookup_queue
    | apply keeps_store_queue | apply keeps_on_queue
    | apply keeps_bind; [|intros ?]
    | apply keeps_for_err; intros ?
    | apply keeps_for_each; intros ?
    | match goal with
      | |- keeps_closed (match ?x with _ => _ end) => destruct x
      | |- keeps_closed (let _ := _ in _) => cbv zeta
      end ].

Ltac keeps := keeps_with fail.

Lemma keeps_createAndOpenQueue ct start :
  keeps_closed (createAndOpenQueue ct start).
Proof. unfold createAndOpenQueue, nextDir. keeps. Qed.

Lemma keeps_loadQueues dir startQueues : keeps_closed (loadQueues dir startQueues).
Proof. unfold loadQueues. keeps_with ltac:(apply keeps_createAndOpenQueue). Qed.

Lemma keeps_flush_inflights : keeps_closed flush_inflights.
Proof.
  unfold flush_inflights. keeps_with ltac:(apply keeps_loadQueues).
  by intros ??? [= _ <-].
Qed.

(** **** The operations on a closed service *)

Lemma Append_not_open cluster topic key value s :
  closed (this s) = true →
  Append cluster topic key value s = Some (Some ErrNotOpen, s).
Proof.
  intros Hc. unfold Append, bind, get_closed. by rewrite Hc.
Qed.

(** C8. On a closed service, [Append] returns [ErrNotOpen] for every cluster,
    topic, key and value, and nothing has changed: the registry holds the
    same queues, no lookup was made, no queue was created, no block was
    handed to a queue, and the world is as it was. *)
Theorem Append_closed (cluster topic : string) (key value : list Byte.byte)
    (s : state) :
  closed (this s) = true →
  Append cluster topic key value s = Some (Some ErrNotOpen, s) ∧
  ∀ r s', Append cluster topic key value s = Some (r, s') →
    r = Some ErrNotOpen ∧ queues (this s') = queues (this s) ∧
    world s' = world s ∧ trail s' = trail s.
Proof.
  intros Hc. rewrite Append_not_open by done. split; [done|].
  by intros r s' [= <- <-].
Qed.

(** C7. On an open service, [FlushInflights] logs one error and returns: the
    service, its registry, the world and the trail of calls are untouched, so
    no directory was read, no queue was loaded and none was flushed.
    Whenever a run of [FlushInflights] does leave a call on the trail, the
    service was closed. *)
Theorem FlushInflights_open (s : state) :
  (closed (this s) = false →
   FlushInflights s =
     Some (tt, State (this s) (world s) (trail s)
                 (logged s ++
                    [LogError "hh[%s] run flush inflights with service closed!"
                       [Name]]))) ∧
  (∀ s', FlushInflights s = Some (tt, s') → trail s' ≠ trail s →
         closed (this s) = true).
Proof.
  split.
  - intros Hc. unfold FlushInflights, bind, get_closed. by rewrite Hc.
  - intros s'. unfold FlushInflights, bind, get_closed.
    destruct (closed (this s)); [done|]. simpl. by intros [= <-].
Qed.

Lemma Stop_closed s : closed (this s) = true → Stop s = Some (tt, s).
Proof. intros Hc. unfold Stop, bind, get_closed. by rewrite Hc. Qed.

Lemma FlushInflights_closed s :
  closed (this s) = true → FlushInflights s = flush_inflights s.
Proof. intros Hc. unfold FlushInflights, bind, get_closed. by rewrite Hc. Qed.

(** [Start] opens the service exactly when it returns nil. *)
Lemma Start_closed s err s' :
  Start s = Some (err, s') →
  match err with
  | None => closed (this s') = false
  | Some _ => closed (this s') = closed (this s)
  end.
Proof.
  unfold Start, bind at 1, get_cfg. unfold bind at 1.
  destruct (for_err _ _ s) as [[[e|] s1]|] eqn:Hloop; [| |done].
  - intros [= <- <-]. revert Hloop. apply keeps_for_err. intros dir.
    keeps_with ltac:(apply keeps_loadQueues).
  - by intros [= <- <-].
Qed.

(** Every operation but a [Start] that returns nil leaves a closed service
    closed, and an [Append] on it returns [ErrNotOpen]. *)
Lemma exec_closed o s r s' :
  closed (this s) = true → exec o s = Some (r, s') → ¬ started (o, r) →
  closed (this s') = true ∧
  ∀ c t k v, o = OpAppend c t k v → r = RError (Some ErrNotOpen).
Proof.
  intros Hc Hexec Hns. destruct o; simpl in Hexec; unfold bind in Hexec.
  - destruct (Start s) as [[err s1]|] eqn:HS; [|done].
    injection Hexec as <- <-. apply Start_closed in HS.
    destruct err; [split; [congruence|done]|]. by destruct Hns.
  - rewrite Stop_closed in Hexec by done. injection Hexec as <- <-. done.
  - injection Hexec as <- <-. done.
  - rewrite Append_not_open in Hexec by done. injection Hexec as <- <-.
    split; [done|]. by intros ???? [= <- <- <- <-].
  - unfold Empty, bind, lookup_queue in Hexec.
    destruct (queues (this s) !! (cluster, topic));
      injection Hexec as <- <-; done.
  - destruct (FlushInflights s) as [[[] s1]|] eqn:HF; [|done].
    injection Hexec as <- <-. split; [|done].
    rewrite FlushInflights_closed in HF by done.
    by rewrite (keeps_flush_inflights _ _ _ HF).
Qed.

Lemma session_closed os s hist s' :
  closed (this s) = true → session os s = Some (hist, s') →
  Forall (λ h, ¬ started h) hist →
  closed (this s') = true ∧
  ∀ c t k v r, (OpAppend c t k v, r) ∈ hist → r = RError (Some ErrNotOpen).
Proof.
  revert s hist. induction os as [|o os IH]; intros s hist Hc; simpl.
  - intros [= <- <-] _. split; [done|]. intros ????? Hin.
    by apply elem_of_nil in Hin.
  - unfold bind.
    destruct (exec o s) as [[r s1]|] eqn:Hexec; [|done].
    destruct (session os s1) as [[rs s2]|] eqn:Hrest; [|done].
    intros [= <- <-] [Hns Hrs]%Forall_cons.
    destruct (exec_closed _ _ _ _ Hc Hexec Hns) as [Hc1 Hret].
    destruct (IH _ _ Hc1 Hrest Hrs) as [Hc2 Hrets].
    split; [done|]. intros c t k v r' [Heq|Hin]%elem_of_cons.
    + injection Heq as <- <-. by eapply Hret.
    + by eapply Hrets.
Qed.

(** C10. The service [New] returns is closed, and stays closed through any
    session of operations in which no [Start] returns nil: every [Append]
    of the session has returned [ErrNotOpen], the next one will, and
    [FlushInflights] passes its guard and goes on to load and flush the
    queues, on the fresh service as afterwards. *)
Theorem New_closed (c : Config) (w : World) (os : list op)
    (hist : list (op * result)) (s : state) :
  session os (New c w) = Some (hist, s) →
  Forall (λ h, ¬ started h) hist →
  closed (this (New c w)) = true ∧
  FlushInflights (New c w) = flush_inflights (New c w) ∧
  closed (this s) = true ∧
  (∀ cl t k v r, (OpAppend cl t k v, r) ∈ hist → r = RError (Some ErrNotOpen)) ∧
  (∀ cl t k v, Append cl t k v s = Some (Some ErrNotOpen, s)) ∧
  FlushInflights s = flush_inflights s.
Proof.
  intros Hses Hns.
  destruct (session_closed os (New c w) hist s eq_refl Hses Hns) as [Hc Hrets].
  split_and!; try done.
  - intros. by apply Append_not_open.
  - by apply FlushInflights_closed.
Qed.

(** **** A start that fails *)

(** A [Start] that returns an error leaves the service closed, although it
    may have loaded and started queues on its way: a [Stop] after it returns
    at once, closing no queue and leaving the timer running, and [Append]
    still answers [ErrNotOpen]. *)
Theorem Start_failed (s : state) (e : error) (s' : state) :
  closed (this s) = true → Start s = Some (Some e, s') →
  closed (this s') = true ∧
  Stop s' = Some (tt, s') ∧
  ∀ c t k v, Append c t k v s' = Some (Some ErrNotOpen, s').
Proof.
  intros Hc HS. apply Start_closed in HS. simpl in HS. rewrite Hc in HS.
  split_and!; [done | by apply Stop_closed | intros; by apply Append_not_open].
Qed.

(** With no data directory configured, [Start] has nothing to do and opens
    the service; the first [Append] for a topic that has no queue then
    panics in [nextDir], on [this.cfg.Dirs[0]]. *)
Theorem Start_no_dirs (s : state) :
  Dirs (cfg (this s)) = [] →
  ∃ s', Start s = Some (None, s') ∧
        closed (this s') = false ∧
        queues (this s') = queues (this s) ∧
        trail s' = trail s ∧
        ∀ c t k v, queues (this s) !! (c, t) = None → Append c t k v s' = None.
Proof.
  intros Hd. eexists. split.
  { unfold Start, bind, get_cfg. rewrite Hd. simpl. reflexivity. }
  simpl. split_and!; try done.
  intros c t k v Hq.
  unfold Append, bind, get_closed, lookup_queue, createAndOpenQueue, nextDir,
    bind, get_cfg. simpl.
  repeat (first [rewrite Hq | rewrite Hd]; simpl). done.
Qed.

(** **** Stopping an open service *)

(** The world after the queues of [qs] have been closed, in that order. *)
Definition close_all (qs : list (clusterTopic * queue)) (w : World) : World :=
  foldl (λ w cq, (q_Close cq.2 w).2) w qs.

Lemma Stop_loop (l : list (clusterTopic * queue)) (s : state) :
  NoDup l.*1 →
  (∀ ct q, (ct, q) ∈ l → queues (this s) !! ct = Some q) →
  ∃ s', for_each (λ '(ct, _),
          on_queue (CClose ct) ct
            (λ q w, let '(q', w') := q_Close q w in (q', w', tt))) l s
        = Some (tt, s') ∧
        cfg (this s') = cfg (this s) ∧ closed (this s') = closed (this s) ∧
        world s' = close_all l (world s) ∧
        trail s' = trail s ++ (CClose <$> l.*1) ∧ logged s' = logged s.
Proof.
  revert s. induction l as [|[ct q] l IH]; intros s Hnd Hin.
  - eexists. split; [reflexivity|]. simpl. by rewrite app_nil_r.
  - rewrite fmap_cons in Hnd. apply NoDup_cons in Hnd as [Hct Hnd].
    cbn [for_each]. unfold bind at 1. unfold on_queue at 1.
    rewrite (Hin ct q) by left.
    unfold close_all. rewrite !fmap_cons. cbn [foldl snd fst].
    destruct (q_Close q (world s)) as [q' w'] eqn:Hclose.
    edestruct (IH (State (MkService (cfg (this s)) (closed (this s))
                            (<[ct:=q']> (queues (this s))))
                     w' (trail s ++ [CClose ct]) (logged s)) Hnd)
      as (s' & Hloop & Hcfg & Hcl & Hw & Ht & Hl).
    { intros ct2 q2 Hin2. cbn [this queues]. rewrite lookup_insert_ne.
      - apply Hin. by right.
      - intros <-. apply Hct. apply list_elem_of_fmap. by exists (ct, q2). }
    exists s'. split; [exact Hloop|]. cbn [this cfg closed world trail logged] in *.
    split_and!; try done. by rewrite Ht, <- (assoc_L (++)).
Qed.

(** On an open service whose registry [range] visits entry by entry, [Stop]
    does not panic: it closes every registered queue once, in the order of
    the visit, stops the timer after them, empties the registry and marks
    the service closed.  A second [Stop] then does nothing. *)
Theorem Stop_open (s : state) :
  closed (this s) = false →
  range_queues (queues (this s)) ≡ₚ map_to_list (queues (this s)) →
  ∃ s', Stop s = Some (tt, s') ∧
        this s' = MkService (cfg (this s)) true ∅ ∧
        world s' = timer_Stop (close_all (range_queues (queues (this s))) (world s)) ∧
        trail s' =
          trail s ++ (CClose <$> (range_queues (queues (this s))).*1) ++ [CTimerStop] ∧
        logged s' = logged s ∧
        Stop s' = Some (tt, s').
Proof.
  intros Hc Hperm.
  destruct (Stop_loop (range_queues (queues (this s))) s)
    as (s1 & Hloop & Hcfg & Hcl & Hw & Ht & Hl).
  { rewrite Hperm. apply NoDup_fst_map_to_list. }
  { intros ct q Hin. rewrite Hperm in Hin. by apply elem_of_map_to_list. }
  eexists. split.
  { unfold Stop, bind at 1, get_closed. rewrite Hc. unfold bind at 1.
    unfold bind at 1. rewrite Hloop. reflexivity. }
  simpl. rewrite Hcfg, Hw, Ht, Hl, <- (assoc_L (++)).
  split_and!; try done.
Qed.

(** **** The in-flight count *)

Lemma wrap64_add a b : wrap64 (wrap64 a + b) = wrap64 (a + b).
Proof.
  unfold wrap64. f_equal.
  replace ((a + 2 ^ 63) `mod` 2 ^ 64 - 2 ^ 63 + b + 2 ^ 63)
    with ((a + 2 ^ 63) `mod` 2 ^ 64 + b) by lia.
  rewrite Zplus_mod_idemp_l. f_equal. lia.
Qed.

(** The in-flight counts of a list of registry entries, summed in Z. *)
Definition inflights_of (qs : list (clusterTopic * queue)) : Z :=
  foldr (λ cq n, q_Inflights cq.2 + n) 0 qs.

Lemma inflights_of_perm qs1 qs2 :
  qs1 ≡ₚ qs2 → inflights_of qs1 = inflights_of qs2.
Proof.
  unfold inflights_of. induction 1 as [|x l1 l2 _ IH|x y l|l1 l2 l3 _ IH1 _ IH2];
    simpl; lia.
Qed.

Lemma Inflights_loop qs a :
  foldl (λ n '(_, q), wrap64 (n + q_Inflights q)) (wrap64 a) qs =
  wrap64 (a + inflights_of qs).
Proof.
  revert a. induction qs as [|[ct q] qs IH]; intros a; simpl.
  - f_equal. lia.
  - rewrite wrap64_add, IH. f_equal. lia.
Qed.

(** [Inflights] changes nothing, and its result does not depend on the order
    in which [range] visits the registry: it is the sum of the queues'
    counts, brought back into an int64. *)
Theorem Inflights_sum (s : state) :
  range_queues (queues (this s)) ≡ₚ map_to_list (queues (this s)) →
  Inflights s = Some (wrap64 (inflights_of (map_to_list (queues (this s)))), s).
Proof.
  intros Hperm. unfold Inflights. do 2 f_equal.
  rewrite <- (inflights_of_perm _ _ Hperm).
  apply (Inflights_loop _ 0).
Qed.

(** **** What a computation can change *)

(** Every completed run of [m] takes a state to one related to it by [R]. *)
Definition preserves {A} (R : relation state) (m : M A) : Prop :=
  ∀ s a s', m s = Some (a, s') → R s s'.

Section Preserves.

Context (R : relation state) `{!PreOrder R}.

Lemma preserves_ret {A} (a : A) : preserves R (ret a).
Proof. by intros s a' s' [= _ <-]. Qed.

Lemma preserves_panic {A} : preserves R (@panic A).
Proof. by intros s a s'. Qed.

Lemma preserves_get_closed : preserves R get_closed.
Proof. by intros s a s' [= _ <-]. Qed.

Lemma preserves_get_cfg : preserves R get_cfg.
Proof. by intros s a s' [= _ <-]. Qed.

Lemma preserves_bind {A B} (m : M A) (k : A → M B) :
  preserves R m → (∀ a, preserves R (k a)) → preserves R (bind m k).
Proof.
  intros Hm Hk s b s'. unfold bind.
  destruct (m s) as [[a s1]|] eqn:Hms; [|done].
  intros Hks. etrans; [by eapply Hm | by eapply Hk].
Qed.

Lemma preserves_for_err {A} (body : A → M (option error)) l :
  (∀ a, preserves R (body a)) → preserves R (for_err body l).
Proof.
  intros Hbody. induction l as [|a l IH]; simpl; [apply preserves_ret|].
  apply preserves_bind; [done|]. intros [e|]; [apply preserves_ret | done].
Qed.

Lemma preserves_for_each {A} (body : A → M unit) l :
  (∀ a, preserves R (body a)) → preserves R (for_each body l).
Proof.
  intros Hbody. induction l as [|a l IH]; simpl; [apply preserves_ret|].
  by apply preserves_bind.
Qed.

End Preserves.

(** Breaks a computation down to its primitive steps, which [prim] solves. *)
Ltac preserves_with prim :=
  repeat first
    [ match goal with |- PreOrder _ => apply _ end
    | prim
    | apply preserves_ret | apply preserves_panic
    | apply preserves_get_closed | apply preserves_get_cfg
    | apply preserves_bind; [| |intros ?]
    | apply preserves_for_err; [|intros ?]
    | apply preserves_for_each; [|intros ?]
    | progress cbv beta iota zeta
    | match goal with
      | |- preserves _ (match ?x with _ => _ end) => destruct x
      end ].

(** **** Append leaves the other queues alone *)

(** The registry entries other than [ct], the configuration, the [closed]
    flag and the log are the same. *)
Definition same_but (ct : clusterTopic) (s s' : state) : Prop :=
  cfg (this s') = cfg (this s) ∧ closed (this s') = closed (this s) ∧
  logged s' = logged s ∧
  ∀ ct', ct' ≠ ct → queues (this s') !! ct' = queues (this s) !! ct'.

Global Instance same_but_preorder ct : PreOrder (same_but ct).
Proof.
  split.
  - by intros s.
  - intros s1 s2 s3 (Hc1 & Hl1 & Hg1 & Hq1) (Hc2 & Hl2 & Hg2 & Hq2).
    split_and!; [congruence..|]. intros ct' Hne. by rewrite Hq2, Hq1.
Qed.

Lemma same_but_extern {A} ct c (f : World → World * A) :
  preserves (same_but ct) (extern c f).
Proof.
  intros s a s'. unfold extern. destruct (f (world s)). by intros [= _ <-].
Qed.

Lemma same_but_lookup_queue ct ct1 : preserves (same_but ct) (lookup_queue ct1).
Proof. by intros s a s' [= _ <-]. Qed.

Lemma same_but_store_queue ct q : preserves (same_but ct) (store_queue ct q).
Proof.
  intros s a s' [= _ <-]. split_and!; try done.
  intros ct' Hne. simpl. by rewrite lookup_insert_ne.
Qed.

Lemma same_but_on_queue {A} ct c (f : queue → World → queue * World * A) :
  preserves (same_but ct) (on_queue c ct f).
Proof.
  intros s a s'. unfold on_queue. destruct (queues (this s) !! ct) as [q|]; [|done].
  destruct (f q (world s)) as [[q' w] a']. intros [= _ <-].
  split_and!; try done. intros ct' Hne. simpl. by rewrite lookup_insert_ne.
Qed.

Ltac same_but_prim :=
  first [ apply same_but_extern | apply same_but_lookup_queue
        | apply same_but_store_queue | apply same_but_on_queue ].

Lemma same_but_createAndOpenQueue ct start :
  preserves (same_but ct) (createAndOpenQueue ct start).
Proof. unfold createAndOpenQueue, nextDir. preserves_with same_but_prim. Qed.

(** Whatever [Append] does for one cluster and topic (hand the block to the
    registered queue, or create, open and start one, or fail on the way), the
    queues registered for every other cluster and topic, the configuration
    and the [closed] flag are as before, and nothing is logged. *)
Theorem Append_frame (cluster topic : string) (key value : list Byte.byte)
    (s : state) (r : option error) (s' : state) :
  Append cluster topic key value s = Some (r, s') →
  cfg (this s') = cfg (this s) ∧ closed (this s') = closed (this s) ∧
  logged s' = logged s ∧
  ∀ ct', ct' ≠ (cluster, topic) →
         queues (this s') !! ct' = queues (this s) !! ct'.
Proof.
  revert s r s'. change (preserves (same_but (cluster, topic))
                           (Append cluster topic key value)).
  unfold Append.
  preserves_with ltac:(first [apply same_but_createAndOpenQueue | same_but_prim]).
Qed.

(** **** A queue whose Open failed *)

(** [createAndOpenQueue] registers the new queue before it opens it.  So
    when [Append] creates a queue and the queue's [Open] fails, [Append]
    returns that error and the queue stays in the registry; the next
    [Append] for the same cluster and topic finds it there and hands its
    block to it, without opening or starting it. *)
Theorem Append_after_failed_open (c t : string) (k v : list Byte.byte)
    (s : state) (d : string) (ds : list string) (w1 w2 : World) (q1 : queue)
    (e : error) :
  closed (this s) = false →
  queues (this s) !! (c, t) = None →
  Dirs (cfg (this s)) = d :: ds →
  MkdirAll (ClusterDir (c, t) d) (world s) = (w1, None) →
  q_Open (newQueue (c, t) (TopicDir (c, t) d) (-1) (PurgeInterval (cfg (this s)))
            (MaxAge (cfg (this s)))) w1 = (q1, w2, Some e) →
  ∃ s1, Append c t k v s = Some (Some e, s1) ∧
        this s1 = MkService (cfg (this s)) false (<[(c, t) := q1]> (queues (this s))) ∧
        world s1 = w2 ∧
        trail s1 =
          trail s ++ [CLookup (c, t); CLookup (c, t);
                      CMkdirAll (ClusterDir (c, t) d);
                      CNewQueue (c, t) (TopicDir (c, t) d); COpen (c, t)] ∧
        ∀ k' v' q2 w3 r,
          q_Append (Block currentMagic k' v') q1 w2 = (q2, w3, r) →
          ∃ s2, Append c t k' v' s1 = Some (r, s2) ∧
                queues (this s2) = <[(c, t) := q2]> (queues (this s)) ∧
                trail s2 =
                  trail s1 ++ [CLookup (c, t);
                               CAppend (c, t) (Block currentMagic k' v')].
Proof.
  intros Hc Hq Hd Hmk Hopen.
  exists (State (MkService (cfg (this s)) false (<[(c, t) := q1]> (queues (this s))))
            w2
            (trail s ++ [CLookup (c, t); CLookup (c, t);
                         CMkdirAll (ClusterDir (c, t) d);
                         CNewQueue (c, t) (TopicDir (c, t) d); COpen (c, t)])
            (logged s)).
  split.
  { unfold Append, bind, get_closed, lookup_queue, createAndOpenQueue, nextDir,
      bind, get_cfg, extern, store_queue, on_queue. simpl.
    repeat (first [rewrite Hc | rewrite Hq | rewrite Hd | rewrite Hmk
                  | rewrite lookup_insert_eq | rewrite Hopen ]; simpl).
    by rewrite insert_insert_eq, <- !(assoc_L (++)). }
  simpl. split_and!; try done.
  intros k' v' q2 w3 r Happ.
  exists (State (MkService (cfg (this s)) false (<[(c, t) := q2]> (queues (this s))))
            w3
            ((trail s ++ [CLookup (c, t); CLookup (c, t);
                          CMkdirAll (ClusterDir (c, t) d);
                          CNewQueue (c, t) (TopicDir (c, t) d); COpen (c, t)])
             ++ [CLookup (c, t); CAppend (c, t) (Block currentMagic k' v')])
            (logged s)).
  split; [|done].
  unfold Append, bind, get_closed, lookup_queue, on_queue. simpl.
  repeat (first [rewrite lookup_insert_eq | rewrite Happ]; simpl).
  by rewrite insert_insert_eq, <- !(assoc_L (++)).
Qed.

(** **** The offline flush *)

(** The calls an offline flush is made of. *)
Definition offline (c : call) : bool :=
  match c with
  | CReadDir _ | CMkdirAll _ | CNewQueue _ _ | COpen _ | CFlushInflights _ => true
  | _ => false
  end.

(** The trail has grown, by calls that satisfy [P] only. *)
Definition grows_by (P : call → bool) (s s' : state) : Prop :=
  ∃ t, trail s' = trail s ++ t ∧ forallb P t = true.

Global Instance grows_by_preorder P : PreOrder (grows_by P).
Proof.
  split.
  - intros s. exists []. by rewrite app_nil_r.
  - intros s1 s2 s3 (t1 & Ht1 & HP1) (t2 & Ht2 & HP2).
    exists (t1 ++ t2). split.
    + by rewrite Ht2, Ht1, (assoc_L (++)).
    + rewrite forallb_app, HP1, HP2. done.
Qed.

Lemma grows_by_extern {A} P c (f : World → World * A) :
  P c = true → preserves (grows_by P) (extern c f).
Proof.
  intros HP s a s'. unfold extern. destruct (f (world s)). intros [= _ <-].
  exists [c]. simpl. by rewrite HP.
Qed.

Lemma grows_by_log_Error P fmt a : preserves (grows_by P) (log_Error fmt a).
Proof. intros s u s' [= _ <-]. exists []. by rewrite app_nil_r. Qed.

Lemma grows_by_store_queue P ct q : preserves (grows_by P) (store_queue ct q).
Proof. intros s u s' [= _ <-]. exists []. by rewrite app_nil_r. Qed.

Lemma grows_by_on_queue {A} P c ct (f : queue → World → queue * World * A) :
  P c = true → preserves (grows_by P) (on_queue c ct f).
Proof.
  intros HP s a s'. unfold on_queue. destruct (queues (this s) !! ct) as [q|]; [|done].
  destruct (f q (world s)) as [[q' w] a']. intros [= _ <-].
  exists [c]. simpl. by rewrite HP.
Qed.

Ltac grows_by_prim :=
  first [ apply grows_by_extern; reflexivity | apply grows_by_log_Error
        | apply grows_by_store_queue | apply grows_by_on_queue; reflexivity ].

Lemma offline_createAndOpenQueue ct :
  preserves (grows_by offline) (createAndOpenQueue ct false).
Proof. unfold createAndOpenQueue, nextDir. preserves_with grows_by_prim. Qed.

Lemma offline_loadQueues dir : preserves (grows_by offline) (loadQueues dir false).
Proof.
  unfold loadQueues.
  preserves_with ltac:(first [apply offline_createAndOpenQueue | grows_by_prim]).
Qed.

Lemma offline_flush_inflights : preserves (grows_by offline) flush_inflights.
Proof.
  unfold flush_inflights.
  preserves_with ltac:(first [apply offline_loadQueues | grows_by_prim]).
  intros ??? [= _ <-]. reflexivity.
Qed.

Lemma keeps_FlushInflights : keeps_closed FlushInflights.
Proof. unfold FlushInflights. keeps_with ltac:(apply keeps_flush_inflights). Qed.

Lemma offline_FlushInflights : preserves (grows_by offline) FlushInflights.
Proof.
  unfold FlushInflights.
  preserves_with ltac:(first [apply offline_flush_inflights | grows_by_prim]).
Qed.

(** Whatever the state of the service, [FlushInflights] only reads
    directories, creates them, makes and opens queues and flushes them: it
    never starts a queue (the housekeeping the guard speaks of), never
    appends to one, never closes one, and leaves the timer and the [closed]
    flag alone. *)
Theorem FlushInflights_offline (s s' : state) :
  FlushInflights s = Some (tt, s') →
  closed (this s') = closed (this s) ∧
  ∃ t, trail s' = trail s ++ t ∧ forallb offline t = true.
Proof.
  intros Hrun. split.
  - exact (keeps_FlushInflights s tt s' Hrun).
  - exact (offline_FlushInflights s tt s' Hrun).
Qed.

(** **** Where queues are created *)

(** The body of [createAndOpenQueue] once [nextDir] has returned [dir]. *)
Definition createAndOpenQueue_in (dir : string) (ct : clusterTopic) (start : bool)
  : M (option error) :=
  let* err := extern (CMkdirAll (ClusterDir ct dir)) (MkdirAll (ClusterDir ct dir)) in
  let open_it : M (option error) :=
    let* c := get_cfg in
    extern (CNewQueue ct (TopicDir ct dir)) (λ w, (w, tt)) ;;
    store_queue ct (newQueue ct (TopicDir ct dir) (-1) (PurgeInterval c) (MaxAge c)) ;;
    let* err := on_queue (COpen ct) ct q_Open in
    match err with
    | Some e => ret (Some e)
    | None =>
        if start then
          on_queue (CStart ct) ct (λ q w, let '(q', w') := q_Start q w in (q', w', tt)) ;;
          ret None
        else ret None
    end in
  match err with
  | Some e => if negb (IsExist e) then ret (Some e) else open_it
  | None => open_it
  end.

Lemma createAndOpenQueue_dir ct start s d ds :
  Dirs (cfg (this s)) = d :: ds →
  createAndOpenQueue ct start s = createAndOpenQueue_in d ct start s.
Proof.
  intros Hd. unfold createAndOpenQueue, nextDir. unfold bind at 1. unfold bind at 1.
  unfold get_cfg at 1. by rewrite Hd.
Qed.

Definition is_new_queue (c : call) : bool :=
  match c with CNewQueue _ _ => true | _ => false end.

(** The configuration is the same, and every queue made on the way was
    given its place under [d]. *)
Definition made_under (d : string) (s s' : state) : Prop :=
  cfg (this s') = cfg (this s) ∧
  ∃ t, trail s' = trail s ++ t ∧
       ∀ ct d', CNewQueue ct d' ∈ t → d' = TopicDir ct d.

(** As long as [d] is the first configured directory. *)
Definition in_first_dir (d : string) (s s' : state) : Prop :=
  (∃ ds, Dirs (cfg (this s)) = d :: ds) → made_under d s s'.

Global Instance in_first_dir_preorder d : PreOrder (in_first_dir d).
Proof.
  split.
  - intros s _. split; [done|]. exists []. rewrite app_nil_r. split; [done|].
    intros ?? Hin. by apply elem_of_nil in Hin.
  - intros s1 s2 s3 H12 H23 Hd.
    destruct (H12 Hd) as (Hc1 & t1 & Ht1 & Hin1).
    destruct H23 as (Hc2 & t2 & Ht2 & Hin2); [by rewrite Hc1|].
    split; [congruence|]. exists (t1 ++ t2). split.
    + by rewrite Ht2, Ht1, (assoc_L (++)).
    + intros ct d' [?|?]%elem_of_app; eauto.
Qed.

Lemma first_dir_quiet {A} d (m : M A) :
  (∀ s a s', m s = Some (a, s') →
     cfg (this s') = cfg (this s) ∧
     (trail s' = trail s ∨
      ∃ c, trail s' = trail s ++ [c] ∧
           ∀ ct d', c = CNewQueue ct d' → d' = TopicDir ct d)) →
  preserves (in_first_dir d) m.
Proof.
  intros Hm s a s' Hrun _. destruct (Hm s a s' Hrun) as [Hc [Ht|(c & Ht & Hnew)]].
  - split; [done|]. exists []. rewrite app_nil_r. split; [done|].
    intros ?? Hin. by apply elem_of_nil in Hin.
  - split; [done|]. exists [c]. split; [done|].
    intros ct d' Heq%list_elem_of_singleton. by eapply Hnew.
Qed.

Lemma first_dir_extern {A} d c (f : World → World * A) :
  (∀ ct d', c = CNewQueue ct d' → d' = TopicDir ct d) →
  preserves (in_first_dir d) (extern c f).
Proof.
  intros Hc. apply first_dir_quiet. intros s a s'. unfold extern.
  destruct (f (world s)). intros [= _ <-]. split; [done|]. right. by exists c.
Qed.

Lemma first_dir_log_Error d fmt a : preserves (in_first_dir d) (log_Error fmt a).
Proof. apply first_dir_quiet. intros s u s' [= _ <-]. split; [done|]. by left. Qed.

Lemma first_dir_set_closed d b : preserves (in_first_dir d) (set_closed b).
Proof. apply first_dir_quiet. intros s u s' [= _ <-]. split; [done|]. by left. Qed.

Lemma first_dir_set_queues d qs : preserves (in_first_dir d) (set_queues qs).
Proof. apply first_dir_quiet. intros s u s' [= _ <-]. split; [done|]. by left. Qed.

Lemma first_dir_store_queue d ct q : preserves (in_first_dir d) (store_queue ct q).
Proof. apply first_dir_quiet. intros s u s' [= _ <-]. split; [done|]. by left. Qed.

Lemma first_dir_lookup_queue d ct : preserves (in_first_dir d) (lookup_queue ct).
Proof.
  apply first_dir_quiet. intros s u s' [= _ <-]. split; [done|]. right.
  by exists (CLookup ct).
Qed.

Lemma first_dir_range d :
  preserves (in_first_dir d) (λ s, Some (range_queues (queues (this s)), s)).
Proof. apply first_dir_quiet. intros s u s' [= _ <-]. split; [done|]. by left. Qed.

Lemma first_dir_on_queue {A} d c ct (f : queue → World → queue * World * A) :
  is_new_queue c = false → preserves (in_first_dir d) (on_queue c ct f).
Proof.
  intros Hc. apply first_dir_quiet. intros s a s'. unfold on_queue.
  destruct (queues (this s) !! ct) as [q|]; [|done].
  destruct (f q (world s)) as [[q' w] a']. intros [= _ <-].
  split; [done|]. right. exists c. split; [done|]. intros ?? ->. done.
Qed.

Ltac first_dir_prim :=
  first [ apply first_dir_extern; intros ?? [= <- <-]; reflexivity
        | apply first_dir_extern; intros ??; discriminate
        | apply first_dir_log_Error | apply first_dir_set_closed
        | apply first_dir_set_queues | apply first_dir_store_queue
        | apply first_dir_lookup_queue | apply first_dir_range
        | apply first_dir_on_queue; reflexivity ].

Lemma first_dir_createAndOpenQueue_in d ct start :
  preserves (in_first_dir d) (createAndOpenQueue_in d ct start).
Proof. unfold createAndOpenQueue_in. preserves_with first_dir_prim. Qed.

Lemma first_dir_createAndOpenQueue d ct start :
  preserves (in_first_dir d) (createAndOpenQueue ct start).
Proof.
  intros s a s' Hrun [ds Hd]. rewrite (createAndOpenQueue_dir _ _ _ _ _ Hd) in Hrun.
  apply (first_dir_createAndOpenQueue_in d ct start s a s' Hrun). by exists ds.
Qed.

Lemma first_dir_loadQueues d dir startQueues :
  preserves (in_first_dir d) (loadQueues dir startQueues).
Proof.
  unfold loadQueues.
  preserves_with ltac:(first [apply first_dir_createAndOpenQueue | first_dir_prim]).
Qed.

Lemma first_dir_Inflights d : preserves (in_first_dir d) Inflights.
Proof. apply first_dir_quiet. intros s u s' [= _ <-]. split; [done|]. by left. Qed.

Lemma first_dir_exec d o : preserves (in_first_dir d) (exec o).
Proof.
  destruct o; unfold exec, Start, Stop, Append, Empty, FlushInflights,
    flush_inflights;
    preserves_with ltac:(first [ apply first_dir_loadQueues
                               | apply first_dir_Inflights
                               | apply first_dir_createAndOpenQueue
                               | first_dir_prim ]).
Qed.

(** Every queue the service makes, in whatever operation, is placed under
    the FIRST configured directory: [Start] and [FlushInflights] look for
    queues in each directory of [cfg.Dirs] in turn, and a queue found in a
    later one is made anew under [cfg.Dirs[0]], not where it was found. *)
Theorem queues_in_first_dir (o : op) (s : state) (r : result) (s' : state)
    (d : string) (ds : list string) :
  Dirs (cfg (this s)) = d :: ds →
  exec o s = Some (r, s') →
  ∃ t, trail s' = trail s ++ t ∧
       ∀ ct d', CNewQueue ct d' ∈ t → d' = TopicDir ct d.
Proof.
  intros Hd Hrun.
  destruct (first_dir_exec d o s r s' Hrun) as (_ & t & Ht & Hin); [by exists ds|].
  by exists t.
Qed.

End Service.

(** *** A small file system to run the service on

    One data directory, "/hh", holding one cluster with one topic, and a
    directory "/ro" that cannot be created.  A queue is the list of blocks
    appended to it; the world is not observed. *)

Definition demo_mkdirIfNotExist (dir : string) (w : unit) : unit * option error :=
  (w, if decide (dir = "/ro") then Some (Err "permission denied") else None).

Definition demo_ReadDir (dir : string) (w : unit)
  : unit * (list (string * bool) + error) :=
  (w,
   if decide (dir = "/hh") then inl [("c1", true); ("README", false)]
   else if decide (dir = "/hh/c1") then inl [("t1", true)]
   else inr (Err "no such directory")).

Definition demo_MkdirAll (dir : string) (w : unit) : unit * option error := (w, None).
Definition demo_IsExist (e : error) : bool := false.
Definition demo_ClusterDir (ct : clusterTopic) (dir : string) : string :=
  dir +:+ "/" +:+ ct.1.
Definition demo_TopicDir (ct : clusterTopic) (dir : string) : string :=
  dir +:+ "/" +:+ ct.1 +:+ "/" +:+ ct.2.
Definition demo_newQueue (ct : clusterTopic) (dir : string) (maxSize purge age : Z)
  : list block := [].
Definition demo_q_Open (q : list block) (w : unit)
  : list block * unit * option error := (q, w, None).
Definition demo_q_Start (q : list block) (w : unit) : list block * unit := (q, w).
Definition demo_q_Close (q : list block) (w : unit) : list block * unit := (q, w).
Definition demo_q_Append (b : block) (q : list block) (w : unit)
  : list block * unit * option error := (q ++ [b], w, None).
Definition demo_q_FlushInflights (q : list block) (w : unit)
  : list block * unit * list error := ([], w, []).
Definition demo_q_Inflights (q : list block) : Z := Z.of_nat (length q).
Definition demo_q_EmptyInflight (q : list block) : bool := bool_decide (q = []).
Definition demo_show_error (e : error) : string :=
  match e with ErrNotOpen => "not open" | Err msg => msg end.

Definition demo_Append :=
  Append (list block) unit demo_MkdirAll demo_IsExist demo_ClusterDir
    demo_TopicDir demo_newQueue demo_q_Open demo_q_Start demo_q_Append.

Definition demo_FlushInflights :=
  FlushInflights (list block) unit demo_ReadDir demo_MkdirAll demo_IsExist
    demo_ClusterDir demo_TopicDir demo_newQueue demo_q_Open demo_q_Start
    demo_q_FlushInflights demo_show_error map_to_list.

Definition demo_flush_inflights :=
  flush_inflights (list block) unit demo_ReadDir demo_MkdirAll demo_IsExist
    demo_ClusterDir demo_TopicDir demo_newQueue demo_q_Open demo_q_Start
    demo_q_FlushInflights demo_show_error map_to_list.

Definition demo_session :=
  session (list block) unit id demo_mkdirIfNotExist demo_ReadDir demo_MkdirAll
    demo_IsExist demo_ClusterDir demo_TopicDir demo_newQueue demo_q_Open
    demo_q_Start demo_q_Close demo_q_Append demo_q_FlushInflights
    demo_q_Inflights demo_q_EmptyInflight demo_show_error map_to_list.

Definition demo_cfg : Config := MkConfig ["/hh"; "/ro"] 600 604800.

Definition demo_New : state (list block) unit := New (list block) unit id demo_cfg tt.

(** The same service, opened. *)
Definition demo_open : state (list block) unit :=
  State _ _ (MkService _ demo_cfg false ∅) tt [] [].

Definition hello : list Byte.byte :=
  [Byte.x68; Byte.x65; Byte.x6c; Byte.x6c; Byte.x6f].

Lemma Append_closed_witness :
  demo_Append "c1" "t1" [] hello demo_New = Some (Some ErrNotOpen, demo_New) ∧
  ∀ r s', demo_Append "c1" "t1" [] hello demo_New = Some (r, s') →
    r = Some ErrNotOpen ∧ queues _ (this _ _ s') = queues _ (this _ _ demo_New) ∧
    world _ _ s' = world _ _ demo_New ∧ trail _ _ s' = trail _ _ demo_New.
Proof.
  apply (Append_closed (list block) unit demo_MkdirAll demo_IsExist
           demo_ClusterDir demo_TopicDir demo_newQueue demo_q_Open demo_q_Start
           demo_q_Append "c1" "t1" [] hello demo_New).
  reflexivity.
Defined.

Lemma FlushInflights_open_witness :
  demo_FlushInflights demo_open =
    Some (tt, State _ _ (MkService _ demo_cfg false ∅) tt []
                [LogError "hh[%s] run flush inflights with service closed!"
                   ["disk"]]).
Proof.
  apply (FlushInflights_open (list block) unit demo_ReadDir demo_MkdirAll
           demo_IsExist demo_ClusterDir demo_TopicDir demo_newQueue demo_q_Open
           demo_q_Start demo_q_FlushInflights demo_show_error map_to_list
           demo_open).
  reflexivity.
Defined.

(** A session on a fresh service: an append, a start that fails on "/ro"
    after loading the queue under "/hh", another append, an offline flush,
    a stop, and a last append. *)
Definition demo_ops : list op :=
  [OpAppend "c1" "t1" [] hello; OpStart; OpAppend "c1" "t1" [] hello;
   OpFlushInflights; OpStop; OpInflights; OpAppend "c2" "t2" [] hello].

Lemma New_closed_witness :
  ∃ hist s,
    demo_session demo_ops demo_New = Some (hist, s) ∧
    hist.*2 =
      [RError (Some ErrNotOpen); RError (Some (Err "permission denied"));
       RError (Some ErrNotOpen); RUnit; RUnit; RInt 0;
       RError (Some ErrNotOpen)] ∧
    closed _ (this _ _ demo_New) = true ∧
    demo_FlushInflights demo_New = demo_flush_inflights demo_New ∧
    closed _ (this _ _ s) = true ∧
    (∀ cl t k v r, (OpAppend cl t k v, r) ∈ hist → r = RError (Some ErrNotOpen)) ∧
    (∀ cl t k v, demo_Append cl t k v s = Some (Some ErrNotOpen, s)) ∧
    demo_FlushInflights s = demo_flush_inflights s.
Proof.
  eexists _, _. split; [vm_compute; reflexivity|]. split; [reflexivity|].
  apply (New_closed (list block) unit id id demo_mkdirIfNotExist demo_ReadDir
           demo_MkdirAll demo_IsExist demo_ClusterDir demo_TopicDir
           demo_newQueue demo_q_Open demo_q_Start demo_q_Close demo_q_Append
           demo_q_FlushInflights demo_q_Inflights demo_q_EmptyInflight
           demo_show_error map_to_list demo_cfg tt demo_ops).
  - vm_compute. reflexivity.
  - repeat (apply Forall_cons; split; [unfold started; congruence|]).
    constructor.
Defined.

(** *** The same file system, for the other operations *)

Definition demo_Start :=
  Start (list block) unit demo_mkdirIfNotExist demo_ReadDir demo_MkdirAll
    demo_IsExist demo_ClusterDir demo_TopicDir demo_newQueue demo_q_Open
    demo_q_Start.

Definition demo_Stop := Stop (list block) unit id demo_q_Close map_to_list.

Definition demo_Inflights := Inflights (list block) unit demo_q_Inflights map_to_list.

(** The fresh service after its [Start] has failed on "/ro": the queue
    under "/hh" is loaded and started. *)
Definition demo_half_started : state (list block) unit :=
  State _ _ (MkService _ demo_cfg true {[ ("c1", "t1") := [] ]}) tt
    [CNewTimeWheel; CMkdirIfNotExist "/hh"; CReadDir "/hh"; CReadDir "/hh/c1";
     CMkdirAll "/hh/c1"; CNewQueue ("c1", "t1") "/hh/c1/t1"; COpen ("c1", "t1");
     CStart ("c1", "t1"); CMkdirIfNotExist "/ro"] [].

Lemma Start_failed_witness :
  closed _ (this _ _ demo_half_started) = true ∧
  demo_Stop demo_half_started = Some (tt, demo_half_started) ∧
  ∀ c t k v, demo_Append c t k v demo_half_started
             = Some (Some ErrNotOpen, demo_half_started).
Proof.
  apply (Start_failed (list block) unit id demo_mkdirIfNotExist demo_ReadDir
           demo_MkdirAll demo_IsExist demo_ClusterDir demo_TopicDir
           demo_newQueue demo_q_Open demo_q_Start demo_q_Close demo_q_Append
           map_to_list demo_New (Err "permission denied") demo_half_started).
  - reflexivity.
  - vm_compute. reflexivity.
Defined.

(** A service configured without a data directory. *)
Definition demo_no_dirs : state (list block) unit :=
  State _ _ (MkService _ (MkConfig [] 600 604800) true ∅) tt [] [].

Lemma Start_no_dirs_witness :
  ∃ s', demo_Start demo_no_dirs = Some (None, s') ∧
        closed _ (this _ _ s') = false ∧
        queues _ (this _ _ s') = queues _ (this _ _ demo_no_dirs) ∧
        trail _ _ s' = trail _ _ demo_no_dirs ∧
        ∀ c t k v, queues _ (this _ _ demo_no_dirs) !! (c, t) = None →
                   demo_Append c t k v s' = None.
Proof.
  apply (Start_no_dirs (list block) unit demo_mkdirIfNotExist demo_ReadDir
           demo_MkdirAll demo_IsExist demo_ClusterDir demo_TopicDir
           demo_newQueue demo_q_Open demo_q_Start demo_q_Append demo_no_dirs).
  reflexivity.
Defined.

(** An open service with two queues, one of them holding a block. *)
Definition demo_cfg1 : Config := MkConfig ["/hh"] 600 604800.

Definition demo_running : state (list block) unit :=
  State _ _
    (MkService _ demo_cfg1 false
       {[ ("c1", "t1") := [Block currentMagic [] hello]; ("c2", "t2") := [] ]})
    tt [] [].

Lemma Stop_open_witness :
  ∃ s', demo_Stop demo_running = Some (tt, s') ∧
        this _ _ s' = MkService _ demo_cfg1 true ∅ ∧
        world _ _ s' =
          id (close_all (list block) unit demo_q_Close
                (map_to_list (queues _ (this _ _ demo_running))) tt) ∧
        trail _ _ s' =
          trail _ _ demo_running ++
          (CClose <$> (map_to_list (queues _ (this _ _ demo_running))).*1) ++
          [CTimerStop] ∧
        logged _ _ s' = logged _ _ demo_running ∧
        demo_Stop s' = Some (tt, s').
Proof.
  apply (Stop_open (list block) unit id demo_q_Close map_to_list demo_running).
  - reflexivity.
  - reflexivity.
Defined.

Lemma Inflights_sum_witness :
  demo_Inflights demo_running =
    Some (wrap64 (inflights_of (list block) demo_q_Inflights
                    (map_to_list (queues _ (this _ _ demo_running)))),
          demo_running).
Proof.
  apply (Inflights_sum (list block) unit demo_q_Inflights map_to_list demo_running).
  reflexivity.
Defined.

(** [demo_running] after one more block for ("c1", "t1"). *)
Definition demo_appended : state (list block) unit :=
  State _ _
    (MkService _ demo_cfg1 false
       {[ ("c1", "t1") := [Block currentMagic [] hello; Block currentMagic [] hello];
          ("c2", "t2") := [] ]})
    tt [CLookup ("c1", "t1"); CAppend ("c1", "t1") (Block currentMagic [] hello)] [].

Lemma Append_frame_witness :
  cfg _ (this _ _ demo_appended) = cfg _ (this _ _ demo_running) ∧
  closed _ (this _ _ demo_appended) = closed _ (this _ _ demo_running) ∧
  logged _ _ demo_appended = logged _ _ demo_running ∧
  ∀ ct', ct' ≠ ("c1", "t1") →
         queues _ (this _ _ demo_appended) !! ct'
         = queues _ (this _ _ demo_running) !! ct'.
Proof.
  apply (Append_frame (list block) unit demo_MkdirAll demo_IsExist
           demo_ClusterDir demo_TopicDir demo_newQueue demo_q_Open demo_q_Start
           demo_q_Append "c1" "t1" [] hello demo_running None demo_appended).
  vm_compute. reflexivity.
Defined.

(** A queue that cannot be opened. *)
Definition failing_Open (q : list block) (w : unit)
  : list block * unit * option error := (q, w, Some (Err "disk full")).

Definition failing_Append :=
  Append (list block) unit demo_MkdirAll demo_IsExist demo_ClusterDir
    demo_TopicDir demo_newQueue failing_Open demo_q_Start demo_q_Append.

Lemma Append_after_failed_open_witness :
  ∃ s1, failing_Append "c1" "t1" [] hello demo_open
        = Some (Some (Err "disk full"), s1) ∧
        this _ _ s1 = MkService _ demo_cfg false {[ ("c1", "t1") := [] ]} ∧
        world _ _ s1 = tt ∧
        trail _ _ s1 =
          [CLookup ("c1", "t1"); CLookup ("c1", "t1"); CMkdirAll "/hh/c1";
           CNewQueue ("c1", "t1") "/hh/c1/t1"; COpen ("c1", "t1")] ∧
        ∀ k' v' q2 w3 r,
          demo_q_Append (Block currentMagic k' v') [] tt = (q2, w3, r) →
          ∃ s2, failing_Append "c1" "t1" k' v' s1 = Some (r, s2) ∧
                queues _ (this _ _ s2) = {[ ("c1", "t1") := q2 ]} ∧
                trail _ _ s2 =
                  trail _ _ s1 ++ [CLookup ("c1", "t1");
                                   CAppend ("c1", "t1") (Block currentMagic k' v')].
Proof.
  apply (Append_after_failed_open (list block) unit demo_MkdirAll demo_IsExist
           demo_ClusterDir demo_TopicDir demo_newQueue failing_Open demo_q_Start
           demo_q_Append "c1" "t1" [] hello demo_open "/hh" ["/ro"] tt tt []
           (Err "disk full")).
  - reflexivity.
  - reflexivity.
  - reflexivity.
  - reflexivity.
  - reflexivity.
Defined.

(** A closed service on "/hh" alone, before and after an offline flush. *)
Definition demo_closed1 : state (list block) unit :=
  State _ _ (MkService _ demo_cfg1 true ∅) tt [] [].

Definition demo_flushed : state (list block) unit :=
  State _ _ (MkService _ demo_cfg1 true {[ ("c1", "t1") := [] ]}) tt
    [CReadDir "/hh"; CReadDir "/hh/c1"; CMkdirAll "/hh/c1";
     CNewQueue ("c1", "t1") "/hh/c1/t1"; COpen ("c1", "t1");
     CFlushInflights ("c1", "t1")] [].

Lemma FlushInflights_offline_witness :
  closed _ (this _ _ demo_flushed) = closed _ (this _ _ demo_closed1) ∧
  ∃ t, trail _ _ demo_flushed = trail _ _ demo_closed1 ++ t ∧
       forallb offline t = true.
Proof.
  apply (FlushInflights_offline (list block) unit demo_ReadDir demo_MkdirAll
           demo_IsExist demo_ClusterDir demo_TopicDir demo_newQueue demo_q_Open
           demo_q_Start demo_q_FlushInflights demo_show_error map_to_list
           demo_closed1 demo_flushed).
  vm_compute. reflexivity.
Defined.

(** *** Two data directories

    "/a" is empty; "/b" holds one cluster with one topic. *)

Definition two_ReadDir (dir : string) (w : unit)
  : unit * (list (string * bool) + error) :=
  (w,
   if decide (dir = "/a") then inl []
   else if decide (dir = "/b") then inl [("c1", true)]
   else if decide (dir = "/b/c1") then inl [("t1", true)]
   else inr (Err "no such directory")).

Definition two_exec :=
  exec (list block) unit id demo_mkdirIfNotExist two_ReadDir demo_MkdirAll
    demo_IsExist demo_ClusterDir demo_TopicDir demo_newQueue demo_q_Open
    demo_q_Start demo_q_Close demo_q_Append demo_q_FlushInflights
    demo_q_Inflights demo_q_EmptyInflight demo_show_error map_to_list.

Definition two_closed : state (list block) unit :=
  State _ _ (MkService _ (MkConfig ["/a"; "/b"] 600 604800) true ∅) tt [] [].

(** After [Start]: the queue found under "/b" has been made under "/a". *)
Definition two_started : state (list block) unit :=
  State _ _
    (MkService _ (MkConfig ["/a"; "/b"] 600 604800) false {[ ("c1", "t1") := [] ]})
    tt
    [CMkdirIfNotExist "/a"; CReadDir "/a"; CMkdirIfNotExist "/b"; CReadDir "/b";
     CReadDir "/b/c1"; CMkdirAll "/a/c1"; CNewQueue ("c1", "t1") "/a/c1/t1";
     COpen ("c1", "t1"); CStart ("c1", "t1")] [].

Lemma queues_in_first_dir_witness :
  ∃ t, trail _ _ two_started = trail _ _ two_closed ++ t ∧
       ∀ ct d', CNewQueue ct d' ∈ t → d' = demo_TopicDir ct "/a".
Proof.
  apply (queues_in_first_dir (list block) unit id demo_mkdirIfNotExist
           two_ReadDir demo_MkdirAll demo_IsExist demo_ClusterDir demo_TopicDir
           demo_newQueue demo_q_Open demo_q_Start demo_q_Close demo_q_Append
           demo_q_FlushInflights demo_q_Inflights demo_q_EmptyInflight
           demo_show_error map_to_list OpStart two_closed (RError None)
           two_started "/a" ["/b"]).
  - reflexivity.
  - vm_compute. reflexivity.
Defined.

End Disk.

(** ** The zone load watcher

    [WatchLoadAvg.highLoadCount]: the lines `consul exec uptime | grep load`
    prints are scanned one by one, and a line counts when the first byte of
    what follows "load average:" is above '2'.  A Go string is its bytes.
    [strings.Index] and [strings.Split] work on bytes and are written out;
    [strings.TrimSpace] and [strings.Fields] decode UTF-8 and are parameters,
    known by what the Go documentation says of them on ASCII text. *)

Module LoadAvg.

Import Stdlib.Strings.Ascii.

Abbreviation gostring := (list ascii).

Definition threshold : ascii := "2"%char.

Definition load_average : gostring := String.list_ascii_of_string "load average:".

(** [strings.HasPrefix(s, prefix)] *)
Fixpoint HasPrefix (s prefix : gostring) {struct prefix} : bool :=
  match prefix, s with
  | [], _ => true
  | p :: prefix', c :: s' => bool_decide (c = p) && HasPrefix s' prefix'
  | _ :: _, [] => false
  end.

(** [strings.Index(s, substr)]: the index of the first instance of [substr]
    in [s]; [None] is -1. *)
Fixpoint Index (s substr : gostring) : option nat :=
  if HasPrefix s substr then Some 0%nat
  else match s with
       | [] => None
       | _ :: s' => S <$> Index s' substr
       end.

(** The loop of [genSplit]: cut at the first instance of [sep], go on with
    what follows it, at most [n] times. *)
Fixpoint genSplit (n : nat) (s sep : gostring) : list gostring :=
  match n with
  | O => [s]
  | S n' =>
      match Index s sep with
      | None => [s]
      | Some m => take m s :: genSplit n' (drop (m + length sep) s) sep
      end
  end.

(** [strings.Split(s, sep)] for a separator that is not empty: there are
    fewer instances of [sep] in [s] than bytes. *)
Definition Split (s sep : gostring) : list gostring := genSplit (length s) s sep.

(** [pipestream]'s command: what was called on it. *)
Inductive pipe_call := POpen (name : string) (args : list string) | PClose.

(** [log.Warn("%s %s", node, loadAvgs)] *)
Record warning := Warn { node : gostring; loadAvgs : gostring }.

Section HighLoadCount.

Variable TrimSpace : gostring → gostring.
Variable Fields : gostring → list gostring.

(** The body of the scanner loop; [None] is an index out of range. *)
Definition scan (line : gostring) (st : Z * list warning)
  : option (Z * list warning) :=
  let '(n, warned) := st in
  let parts := Split line load_average in
  if decide (length parts < 2)%nat then Some st
  else
    match parts !! 1%nat with
    | None => None
    | Some part =>
        let loadAvgs := TrimSpace part in
        match loadAvgs with
        | [] => None
        | c :: _ =>
            if decide (Ascii.N_of_ascii threshold < Ascii.N_of_ascii c)%N then
              let fields := Fields line in
              match fields with
              | [] => None
              | node :: _ => Some (wrap64 (n + 1), warned ++ [Warn node loadAvgs])
              end
            else Some st
        end
    end.

Record outcome := Outcome {
  n : Z;
  err : option string;
  warned : list warning;
  calls : list pipe_call
}.

Definition consul : pipe_call :=
  POpen "consul" ["exec"; "uptime"; "|"; "grep"; "load"].

(** [open_err] is what [cmd.Open()] returns, [lines] what the scanner
    yields. *)
Definition highLoadCount (open_err : option string) (lines : list gostring)
  : option outcome :=
  match open_err with
  | Some e => Some (Outcome 0 (Some e) [] [consul])
  | None =>
      st ← range_fold scan lines (0, []);
      Some (Outcome st.1 None st.2 [consul; PClose])
  end.

(** **** ASCII text *)

(** Go's [asciiSpace]: tab, line feed, vertical tab, form feed, carriage
    return and space. *)
Definition is_ascii_space (c : ascii) : bool :=
  bool_decide (Ascii.N_of_ascii c ∈ [9; 10; 11; 12; 13; 32]%N).

(** A byte that is a character by itself and not white space. *)
Definition graphic (c : ascii) : bool :=
  bool_decide (Ascii.N_of_ascii c < 128)%N && negb (is_ascii_space c).

Hypothesis TrimSpace_blank :
  ∀ ws, forallb is_ascii_space ws = true → TrimSpace ws = [].
Hypothesis TrimSpace_graphic :
  ∀ ws c r, forallb is_ascii_space ws = true → graphic c = true →
            ∃ r', TrimSpace (ws ++ c :: r) = c :: r'.
Hypothesis Fields_graphic :
  ∀ s c, c ∈ s → graphic c = true → Fields s ≠ [].

(** A line of the report: [before], "load average:", [blanks], the byte
    [first] and [after]. *)
Record report := Report {
  before : gostring;
  blanks : gostring;
  first : ascii;
  after : gostring
}.

Definition report_line (r : report) : gostring :=
  before r ++ load_average ++ blanks r ++ first r :: after r.

(** "load average:" occurs at the end of [before ++ "load average:"] and not
    earlier; only blanks stand between it and [first], which does not begin
    another "load average:". *)
Definition well_formed (r : report) : bool :=
  bool_decide (Index (before r ++ load_average) load_average
               = Some (length (before r))) &&
  forallb is_ascii_space (blanks r) && graphic (first r) &&
  negb (HasPrefix (first r :: after r) load_average).

(** What the scanner yields: a report line, or a line without
    "load average:". *)
Definition line_of (x : gostring + report) : gostring :=
  match x with inl other => other | inr r => report_line r end.

Definition expected (x : gostring + report) : bool :=
  match x with
  | inl other => bool_decide (Index other load_average = None)
  | inr r => well_formed r
  end.

Definition high (x : gostring + report) : bool :=
  match x with
  | inl _ => false
  | inr r => bool_decide (Ascii.N_of_ascii threshold < Ascii.N_of_ascii (first r))%N
  end.

Lemma HasPrefix_app p x : HasPrefix (p ++ x) p = true.
Proof.
  induction p as [|a p IH]; [done|]. simpl. by rewrite bool_decide_eq_true_2, IH.
Qed.

Lemma HasPrefix_ext s x p :
  (length p ≤ length s)%nat → HasPrefix (s ++ x) p = HasPrefix s p.
Proof.
  revert s. induction p as [|a p IH]; intros [|c s] Hlen; simpl in *; try done;
    [lia|]. rewrite IH by lia. done.
Qed.

Lemma Index_cons a s p :
  Index (a :: s) p = if HasPrefix (a :: s) p then Some 0%nat else S <$> Index s p.
Proof. done. Qed.

Lemma Index_ext pre p x :
  Index (pre ++ p) p = Some (length pre) →
  Index (pre ++ p ++ x) p = Some (length pre).
Proof.
  induction pre as [|a pre IH].
  - intros _. simpl. destruct (p ++ x) eqn:Hpx; simpl.
    + destruct p; [done|done].
    + rewrite <- Hpx, HasPrefix_app. done.
  - simpl app. rewrite !Index_cons.
    destruct (HasPrefix (a :: pre ++ p) p) eqn:Hpre; [done|].
    replace (a :: pre ++ p ++ x) with ((a :: pre ++ p) ++ x)
      by (simpl; by rewrite <- (assoc_L (++))).
    rewrite HasPrefix_ext, Hpre by (simpl; rewrite length_app; lia).
    destruct (Index (pre ++ p) p) as [m|] eqn:Hi; [|done].
    simpl. intros [= ->]. by rewrite IH.
Qed.

Lemma space_not_l w : is_ascii_space w = true → w ≠ "l"%char.
Proof. intros Hw ->. done. Qed.

Lemma HasPrefix_space w s : is_ascii_space w = true → HasPrefix (w :: s) load_average = false.
Proof.
  intros Hw. simpl. rewrite bool_decide_eq_false_2; [done|]. by apply space_not_l.
Qed.

Lemma Index_blank ws :
  forallb is_ascii_space ws = true → Index ws load_average = None.
Proof.
  induction ws as [|w ws IH]; [done|]. simpl forallb.
  intros [Hw Hws]%andb_true_iff. rewrite Index_cons, HasPrefix_space by done.
  by rewrite IH.
Qed.

Lemma Index_after_blanks ws rest :
  forallb is_ascii_space ws = true → HasPrefix rest load_average = true →
  Index (ws ++ rest) load_average = Some (length ws).
Proof.
  intros Hws Hrest. induction ws as [|w ws IH].
  - simpl. destruct rest; [done|]. by rewrite Index_cons, Hrest.
  - simpl in Hws. apply andb_true_iff in Hws as [Hw Hws]. simpl app.
    rewrite Index_cons, HasPrefix_space, IH by done. done.
Qed.

Lemma Index_past_blanks ws c rest m :
  forallb is_ascii_space ws = true →
  HasPrefix (c :: rest) load_average = false →
  Index (ws ++ c :: rest) load_average = Some m →
  ∃ k, m = (length ws + S k)%nat.
Proof.
  intros Hws Hc. revert m. induction ws as [|w ws IH]; intros m.
  - simpl app. rewrite Index_cons, Hc.
    destruct (Index rest load_average) as [k|]; [|done].
    intros [= <-]. by exists k.
  - simpl in Hws. apply andb_true_iff in Hws as [Hw Hws]. simpl app.
    rewrite Index_cons, HasPrefix_space by done.
    destruct (Index (ws ++ c :: rest) load_average) as [m'|] eqn:Hi; [|done].
    intros [= <-]. destruct (IH Hws m' eq_refl) as [k ->]. by exists k.
Qed.

Lemma genSplit_S k s sep :
  genSplit (S k) s sep =
  match Index s sep with
  | None => [s]
  | Some m => take m s :: genSplit k (drop (m + length sep) s) sep
  end.
Proof. done. Qed.

(** The second part of a line that has "load average:" in it. *)
Lemma Split_second pre tail :
  Index (pre ++ load_average) load_average = Some (length pre) →
  ∃ parts,
    Split (pre ++ load_average ++ tail) load_average = pre :: parts ∧
    parts = genSplit (length (pre ++ load_average ++ tail) - 1) tail load_average.
Proof.
  intros Hi. eexists. split; [|reflexivity]. unfold Split.
  destruct (length (pre ++ load_average ++ tail)) as [|k] eqn:Hlen.
  { rewrite !length_app in Hlen. simpl in Hlen. lia. }
  rewrite genSplit_S, (Index_ext _ _ _ Hi), take_app_length. f_equal.
  replace (S k - 1)%nat with k by lia. f_equal.
  rewrite drop_app_add', drop_app_length; done.
Qed.

Lemma genSplit_head k s :
  ∃ m rest, genSplit k s load_average = take m s :: rest ∧
            (m = length s ∧ (k = 0%nat ∨ Index s load_average = None) ∨
             Index s load_average = Some m).
Proof.
  destruct k as [|k]; simpl.
  - exists (length s), []. rewrite take_ge by done. auto.
  - destruct (Index s load_average) as [m|] eqn:Hi.
    + eexists m, _. split; [done|]. by right.
    + exists (length s), []. rewrite take_ge by done. auto.
Qed.

Lemma scan_report r st :
  well_formed r = true →
  ∃ st', scan (report_line r) st = Some st' ∧
         st'.1 = (if high (inr r) then wrap64 (st.1 + 1) else st.1) ∧
         length st'.2 = (if high (inr r) then S (length st.2) else length st.2).
Proof.
  unfold well_formed. intros [[[Hi Hws]%andb_true_iff Hg]%andb_true_iff
                               Hc%negb_true_iff]%andb_true_iff.
  apply bool_decide_eq_true in Hi. destruct st as [cnt warned0].
  unfold scan, report_line.
  destruct (Split_second (before r) (blanks r ++ first r :: after r) Hi)
    as (parts & -> & ->).
  destruct (genSplit_head
              (length (before r ++ load_average ++ blanks r ++ first r :: after r) - 1)
              (blanks r ++ first r :: after r)) as (m & rest & -> & Hm).
  simpl length. rewrite decide_False by lia. simpl lookup.
  assert (∃ r', take m (blanks r ++ first r :: after r)
                = blanks r ++ first r :: r') as [r' ->].
  { destruct Hm as [[-> _]|Hm].
    - rewrite take_ge by done. eauto.
    - destruct (Index_past_blanks _ _ _ _ Hws Hc Hm) as [k ->].
      rewrite take_app_add'; [|done]. simpl. eauto. }
  destruct (TrimSpace_graphic (blanks r) (first r) r' Hws Hg) as [r'' ->].
  simpl high. case_decide as Hhigh.
  - rewrite bool_decide_eq_true_2 by done.
    destruct (Fields _) as [|nd fs] eqn:HF.
    + exfalso. revert HF. apply (Fields_graphic _ (first r)); [|done].
      rewrite !elem_of_app. right. right. right. by left.
    + eexists. split; [done|]. simpl. split; [done|]. rewrite length_app. simpl. lia.
  - rewrite bool_decide_eq_false_2 by done. eexists. done.
Qed.

Lemma scan_other other st :
  Index other load_average = None → scan other st = Some st.
Proof.
  intros Hi. destruct st as [cnt warned0]. unfold scan, Split.
  destruct (length other); simpl; [done|]. by rewrite Hi.
Qed.

(** The count over a list of lines, in Z. *)
Definition high_count (xs : list (gostring + report)) : Z :=
  Z.of_nat (length (filter (λ x, high x = true) xs)).

Lemma wrap64_plus a b : wrap64 (wrap64 a + b) = wrap64 (a + b).
Proof.
  unfold wrap64. f_equal.
  replace ((a + 2 ^ 63) `mod` 2 ^ 64 - 2 ^ 63 + b + 2 ^ 63)
    with ((a + 2 ^ 63) `mod` 2 ^ 64 + b) by lia.
  rewrite Zplus_mod_idemp_l. f_equal. lia.
Qed.

Lemma scan_lines xs st :
  forallb expected xs = true →
  ∃ st', range_fold scan (line_of <$> xs) st = Some st' ∧
         wrap64 st'.1 = wrap64 (st.1 + high_count xs) ∧
         (st.1 = wrap64 st.1 → st'.1 = wrap64 st'.1) ∧
         length st'.2 = (length st.2 + length (filter (λ x, high x = true) xs))%nat.
Proof.
  revert st. induction xs as [|x xs IH]; intros st; simpl.
  - intros _. exists st. unfold high_count. simpl.
    split_and!; [done| f_equal; lia |done| lia].
  - intros [Hx Hxs]%andb_true_iff.
    assert (∃ st1, scan (line_of x) st = Some st1 ∧
              st1.1 = (if high x then wrap64 (st.1 + 1) else st.1) ∧
              length st1.2 = (if high x then S (length st.2) else length st.2))
      as (st1 & -> & Hn & Hw).
    { destruct x as [other|r]; simpl in *.
      - apply bool_decide_eq_true in Hx. rewrite scan_other by done. eauto.
      - by apply scan_report. }
    simpl. destruct (IH st1 Hxs) as (st' & Hrun & Hn' & Hr' & Hw').
    exists st'. split; [exact Hrun|]. unfold high_count in *.
    rewrite filter_cons. split_and!.
    + rewrite Hn', Hn. destruct (high x); simpl length;
        rewrite ?wrap64_plus; f_equal; lia.
    + intros Hst. apply Hr'. rewrite Hn. destruct (high x); [|done].
      rewrite <- (Z.add_0_r (wrap64 (st.1 + 1))) at 2.
      rewrite wrap64_plus. f_equal. lia.
    + rewrite Hw', Hw. destruct (high x); simpl length; lia.
Qed.

(** Over lines that either lack "load average:" or are well-formed report
    lines, [highLoadCount] does not panic, closes the command and returns no
    error; its count is the number of report lines whose first byte after
    "load average:" and the blanks is above '2', and it warns once for each
    of them.  Only that one byte is looked at: a load of 3.10 counts, a load
    of 12.50 or 25.00 does not. *)
Theorem highLoadCount_first_byte (xs : list (gostring + report)) :
  forallb expected xs = true →
  ∃ out, highLoadCount None (line_of <$> xs) = Some out ∧
         n out = wrap64 (high_count xs) ∧
         err out = None ∧
         length (warned out) = length (filter (λ x, high x = true) xs) ∧
         calls out = [consul; PClose].
Proof.
  intros Hxs. destruct (scan_lines xs (0, []) Hxs) as (st' & Hrun & Hn & Hr & Hw).
  unfold highLoadCount. rewrite Hrun. simpl. eexists. split; [done|]. simpl.
  split_and!; try done. rewrite Hr by done. by rewrite Hn.
Qed.

(** A line in which only blanks follow the first "load average:", up to the
    end of the line or up to another "load average:", makes [highLoadCount]
    panic: the trimmed part is empty and its first byte is indexed. *)
Theorem highLoadCount_blank_panics (l1 l2 : list gostring) (pre ws rest : gostring)
    (out : outcome) :
  highLoadCount None l1 = Some out →
  Index (pre ++ load_average) load_average = Some (length pre) →
  forallb is_ascii_space ws = true →
  rest = [] ∨ HasPrefix rest load_average = true →
  highLoadCount None (l1 ++ (pre ++ load_average ++ ws ++ rest) :: l2) = None.
Proof.
  intros Hl1 Hi Hws Hrest.
  assert (Hscan : ∀ st, scan (pre ++ load_average ++ ws ++ rest) st = None).
  { intros [cnt warned0]. unfold scan.
    destruct (Split_second pre (ws ++ rest) Hi) as (parts & -> & ->).
    destruct (genSplit_head (length (pre ++ load_average ++ ws ++ rest) - 1)
                (ws ++ rest)) as (m & more & -> & Hm).
    cbn [length]. rewrite decide_False by lia. cbn [lookup list_lookup].
    assert (take m (ws ++ rest) = ws) as ->.
    { destruct Hrest as [->|Hrest].
      - rewrite app_nil_r in *. destruct Hm as [[-> _]|Hm].
        + by rewrite take_ge.
        + by rewrite Index_blank in Hm.
      - rewrite (Index_after_blanks _ _ Hws Hrest) in Hm.
        destruct Hm as [[_ [Hk|?]]|[= <-]]; [|done|by rewrite take_app_length].
        rewrite !length_app in Hk. cbn [length load_average] in Hk.
        unfold load_average in Hk. simpl in Hk. lia. }
    by rewrite TrimSpace_blank. }
  unfold highLoadCount in *. rewrite range_fold_app.
  destruct (range_fold scan l1 (0, [])) as [st|]; [|done].
  cbn [mbind option_bind range_fold]. by rewrite Hscan.
Qed.

End HighLoadCount.

(** *** ASCII text

    On text that is all ASCII, [strings.TrimSpace] and [strings.Fields] are
    these. *)

Fixpoint ascii_TrimLeft (s : gostring) : gostring :=
  match s with
  | [] => []
  | c :: s' => if is_ascii_space c then ascii_TrimLeft s' else s
  end.

Definition ascii_TrimSpace (s : gostring) : gostring :=
  reverse (ascii_TrimLeft (reverse (ascii_TrimLeft s))).

Fixpoint ascii_fields (cur s : gostring) : list gostring :=
  match s with
  | [] => match cur with [] => [] | _ => [cur] end
  | c :: s' =>
      if is_ascii_space c then
        match cur with
        | [] => ascii_fields [] s'
        | _ => cur :: ascii_fields [] s'
        end
      else ascii_fields (cur ++ [c]) s'
  end.

Definition ascii_Fields (s : gostring) : list gostring := ascii_fields [] s.

Lemma graphic_not_space c : graphic c = true → is_ascii_space c = false.
Proof. unfold graphic. intros [_ H]%andb_true_iff. by apply negb_true_iff. Qed.

Lemma ascii_TrimLeft_blank ws :
  forallb is_ascii_space ws = true → ascii_TrimLeft ws = [].
Proof.
  induction ws as [|w ws IH]; [done|]. simpl.
  intros [-> Hws]%andb_true_iff. by apply IH.
Qed.

Lemma ascii_TrimLeft_graphic ws c r :
  forallb is_ascii_space ws = true → graphic c = true →
  ascii_TrimLeft (ws ++ c :: r) = c :: r.
Proof.
  intros Hws Hc. induction ws as [|w ws IH]; simpl.
  - by rewrite graphic_not_space.
  - simpl in Hws. apply andb_true_iff in Hws as [-> Hws]. by apply IH.
Qed.

Lemma ascii_TrimLeft_last x c :
  graphic c = true → ∃ y, ascii_TrimLeft (x ++ [c]) = y ++ [c].
Proof.
  intros Hc. induction x as [|a x IH]; simpl.
  - rewrite graphic_not_space by done. by exists [].
  - destruct (is_ascii_space a); [done|]. by exists (a :: x).
Qed.

Lemma ascii_TrimSpace_blank ws :
  forallb is_ascii_space ws = true → ascii_TrimSpace ws = [].
Proof.
  intros Hws. unfold ascii_TrimSpace.
  rewrite (ascii_TrimLeft_blank ws) by done. reflexivity.
Qed.

Lemma ascii_TrimSpace_graphic ws c r :
  forallb is_ascii_space ws = true → graphic c = true →
  ∃ r', ascii_TrimSpace (ws ++ c :: r) = c :: r'.
Proof.
  intros Hws Hc. unfold ascii_TrimSpace.
  rewrite ascii_TrimLeft_graphic, reverse_cons by done.
  destruct (ascii_TrimLeft_last (reverse r) c Hc) as [y ->].
  rewrite reverse_app. simpl. eauto.
Qed.

Lemma ascii_fields_cur cur s : cur ≠ [] → ascii_fields cur s ≠ [].
Proof.
  revert cur. induction s as [|c s IH]; intros cur Hcur; simpl.
  - by destruct cur.
  - destruct (is_ascii_space c).
    + by destruct cur.
    + apply IH. by destruct cur.
Qed.

Lemma ascii_Fields_graphic s c : c ∈ s → graphic c = true → ascii_Fields s ≠ [].
Proof.
  unfold ascii_Fields. generalize (@nil ascii) as cur. intros cur Hin Hc. revert cur.
  induction s as [|a s IH]; intros cur; [by apply elem_of_nil in Hin|].
  simpl. apply elem_of_cons in Hin as [<-|Hin].
  - rewrite graphic_not_space by done. apply ascii_fields_cur. by destruct cur.
  - destruct (is_ascii_space a); [|by apply IH].
    destruct cur; [by apply IH|done].
Qed.

Definition text (s : string) : gostring := String.list_ascii_of_string s.

(** Two report lines, with loads of 3.10 and of 12.50, and a line of
    another kind between them. *)
Definition demo_lines : list (gostring + report) :=
  [inr (Report (text "web1:  10:00:00 up 3 days,  2 users,  ") (text " ")
          "3"%char (text ".10, 2.00, 1.00"));
   inl (text "    3 / 3 node(s) completed / acknowledged");
   inr (Report (text "db1:  10:00:00 up 9 days,  1 user,  ") (text " ")
          "1"%char (text "2.50, 11.00, 9.00"))].

Lemma highLoadCount_first_byte_witness :
  ∃ out, highLoadCount ascii_TrimSpace ascii_Fields None (line_of <$> demo_lines)
         = Some out ∧
         n out = wrap64 (high_count demo_lines) ∧
         err out = None ∧
         length (warned out) = length (filter (λ x, high x = true) demo_lines) ∧
         calls out = [consul; PClose].
Proof.
  apply (highLoadCount_first_byte ascii_TrimSpace ascii_Fields
           ascii_TrimSpace_graphic ascii_Fields_graphic demo_lines).
  vm_compute. reflexivity.
Defined.

(** The load of 12.50 is not counted. *)
Example demo_lines_count :
  highLoadCount ascii_TrimSpace ascii_Fields None (line_of <$> demo_lines) =
  Some (Outcome 1 None [Warn (text "web1:") (text "3.10, 2.00, 1.00")]
          [consul; PClose]).
Proof. vm_compute. reflexivity. Qed.

Lemma highLoadCount_blank_panics_witness :
  highLoadCount ascii_TrimSpace ascii_Fields None
    ([] ++ (text "web1: up 3 days, " ++ load_average ++ text "  " ++ []) :: [])
  = None.
Proof.
  apply (highLoadCount_blank_panics ascii_TrimSpace ascii_Fields
           ascii_TrimSpace_blank [] [] (text "web1: up 3 days, ") (text "  ") []
           (Outcome 0 None [] [consul; PClose])).
  - reflexivity.
  - vm_compute. reflexivity.
  - reflexivity.
  - left. reflexivity.
Defined.

End LoadAvg.
